(** * SQueue: a statically allocated circular-buffer queue

    Shallow embedding of [squeue.hpp] (versions 1.1.0 and 1.0.0) and the
    properties of its ring-buffer engine.

    Conventions of the embedding:
    - [uint32_t] values are integers of [Z]; every arithmetic operation of the
      source is written with its wrap-around ([u32]).  [size_t] (used by the
      loop of [contains]) is taken to be 64 bits wide ([usize]).
    - the array [buffer] is a list; reading or writing outside of it is
      undefined behaviour in C++, which the embedding makes observable as the
      outcome [Undefined].
    - a [T_QUEUE_ELEMENTS*] returned by [front]/[back] is either [nullptr]
      ([None]) or the address of a slot of [buffer] ([Some i] for
      [&buffer[i]]).
    - [QUEUE_SIZE] is the template argument, a [uint32_t] that is at least 1
      (an array of no slots is ill-formed), so [% QUEUE_SIZE] never divides
      by zero; [operator==] of the element type is an arbitrary boolean
      function. *)

From stdpp Require Import base numbers option list.

Local Open Scope Z_scope.

(** ** Machine integers *)

Definition u32 (z : Z) : Z := z mod 2 ^ 32.
Definition usize (z : Z) : Z := z mod 2 ^ 64.

(** ** Outcomes: a value, or undefined behaviour *)

Inductive outcome (A : Type) : Type :=
| Done (a : A)
| Undefined.
Arguments Done {A} a.
Arguments Undefined {A}.

Definition obind {A B : Type} (m : outcome A) (k : A → outcome B) : outcome B :=
  match m with
  | Done a => k a
  | Undefined => Undefined
  end.

Notation "'let*' x := m 'in' k" := (obind m (fun x => k))
  (at level 10, x pattern, m at level 100, k at level 200).

(** ** Arrays and pointers into them *)

Section Arrays.
Context {T : Type}.

Definition in_bounds (a : list T) (i : Z) : bool :=
  bool_decide (0 ≤ i < Z.of_nat (length a)).

(** [a[i]] read. *)
Definition array_get (a : list T) (i : Z) : outcome T :=
  if in_bounds a i then
    match a !! Z.to_nat i with
    | Some x => Done x
    | None => Undefined
    end
  else Undefined.

(** [a[i] = x]. *)
Definition array_set (a : list T) (i : Z) (x : T) : outcome (list T) :=
  if in_bounds a i then Done (<[Z.to_nat i := x]> a) else Undefined.

(** [&(a[i])]. *)
Definition array_ref (a : list T) (i : Z) : outcome Z :=
  if in_bounds a i then Done i else Undefined.
End Arrays.

(** The logical window of a ring: [len] slots starting at [start], wrapping
    at the end of the array. *)
Definition ring_window {T : Type} (buf : list T) (start len : Z) : list T :=
  take (Z.to_nat len) (drop (Z.to_nat start) (buf ++ buf)).

(** The [n] newest elements of a list that is ordered oldest first. *)
Definition newest {T : Type} (n : nat) (l : list T) : list T :=
  drop (length l - n) l.

(** ** Operations a caller can apply to a queue *)

Inductive op (T : Type) : Type :=
| Push (element : T)
| Pop
| Clear.
Arguments Push {T} element.
Arguments Pop {T}.
Arguments Clear {T}.

(** What a caller can see of a queue after an operation: the result code of
    the operation if it was a push (as the value of the enumerator), the
    elements [front] and [back] point to, [size] and [empty]. *)
Record obs (T : Type) : Type := mkObs {
  obs_rc : option Z;
  obs_front : option T;
  obs_back : option T;
  obs_size : Z;
  obs_empty : bool;
}.
Arguments mkObs {T} _ _ _ _ _.

(** The element of the last push of a sequence of operations. *)
Definition pushed {T : Type} (o : op T) : option T :=
  match o with
  | Push element => Some element
  | _ => None
  end.

Definition last_pushed {T : Type} (ops : list (op T)) : option T :=
  last (omap pushed ops).

(** * The queue as a bounded list

    The queue as its specification describes it, without storage or
    indexes: at most [N] elements, oldest first; a push appends, and into a
    full queue it first evicts the oldest element (result code 1 instead of
    0); a pop removes the oldest element, if any.  Both versions of the
    header are compared with it. *)

Module RingQueue.
Section Model.
Context {T : Type}.
Variable N : Z.
Implicit Types (l : list T).

Definition push (element : T) l : Z * list T :=
  if N <=? Z.of_nat (length l) then (1, drop 1 l ++ [element])
  else (0, l ++ [element]).

Definition pop l : list T := drop 1 l.

Definition clear l : list T := [].

Definition step (o : op T) l : option Z * list T :=
  match o with
  | Push element => let (rc, l') := push element l in (Some rc, l')
  | Pop => (None, pop l)
  | Clear => (None, clear l)
  end.

Fixpoint run (ops : list (op T)) l : list T :=
  match ops with
  | [] => l
  | o :: ops => run ops (snd (step o l))
  end.

Definition observe (rc : option Z) l : obs T :=
  mkObs rc (head l) (last l) (Z.of_nat (length l))
    (Z.of_nat (length l) =? 0).

Fixpoint trace (ops : list (op T)) l : list (obs T) :=
  match ops with
  | [] => []
  | o :: ops =>
      let (rc, l') := step o l in
      observe rc l' :: trace ops l'
  end.

Definition observations (ops : list (op T)) l : list (obs T) :=
  observe None l :: trace ops l.
End Model.
End RingQueue.

(** * Version 1.1.0 *)

Module V1_1_0.

(** [enum class t_squeue_rc : uint8_t]. *)
Inductive t_squeue_rc : Type := OK | OVERFLOW | ERROR.

Definition rc_value (rc : t_squeue_rc) : Z :=
  match rc with
  | OK => 0
  | OVERFLOW => 1
  | ERROR => 255
  end.

(** The private attributes of [class SQueue]. *)
Record SQueue (T : Type) : Type := mkSQueue {
  buffer : list T;
  queue_head : Z;
  queue_tail : Z;
  num_elements_stored : Z;
  queue_overflow : bool;
}.
Arguments mkSQueue {T} _ _ _ _ _.
Arguments buffer {T} _.
Arguments queue_head {T} _.
Arguments queue_tail {T} _.
Arguments num_elements_stored {T} _.
Arguments queue_overflow {T} _.

Section Methods.
Context {T : Type}.
Variable QUEUE_SIZE : Z.
Implicit Types (q : SQueue T) (element : T).

(** Assignments to one attribute. *)
Definition set_buffer (b : list T) q : SQueue T :=
  mkSQueue b (queue_head q) (queue_tail q) (num_elements_stored q)
    (queue_overflow q).
Definition set_queue_head (h : Z) q : SQueue T :=
  mkSQueue (buffer q) h (queue_tail q) (num_elements_stored q)
    (queue_overflow q).
Definition set_queue_tail (t : Z) q : SQueue T :=
  mkSQueue (buffer q) (queue_head q) t (num_elements_stored q)
    (queue_overflow q).
Definition set_num_elements_stored (c : Z) q : SQueue T :=
  mkSQueue (buffer q) (queue_head q) (queue_tail q) c (queue_overflow q).
Definition set_queue_overflow (o : bool) q : SQueue T :=
  mkSQueue (buffer q) (queue_head q) (queue_tail q) (num_elements_stored q) o.

(** [SQueue()]: the indexes are zeroed, the storage [buf] is whatever the
    memory holds. *)
Definition construct (buf : list T) : SQueue T :=
  mkSQueue buf 0 0 0 false.

Definition clear q : SQueue T :=
  let q := set_queue_head 0 q in
  let q := set_queue_tail 0 q in
  let q := set_num_elements_stored 0 q in
  set_queue_overflow false q.

Definition size q : Z := num_elements_stored q.

Definition empty q : bool := num_elements_stored q =? 0.

Definition full q : bool := QUEUE_SIZE <=? num_elements_stored q.

Definition front q : outcome (option Z) :=
  if empty q then Done None
  else
    let* p := array_ref (buffer q) (queue_tail q) in
    Done (Some p).

Definition back q : outcome (option Z) :=
  if empty q then Done None
  else
    let last_index :=
      if queue_head q =? 0 then u32 (QUEUE_SIZE - 1)
      else u32 (queue_head q - 1) in
    let* p := array_ref (buffer q) last_index in
    Done (Some p).

Definition push element q : outcome (t_squeue_rc * SQueue T) :=
  (* Handle if Queue is full or not *)
  let q :=
    if full q then
      (* Set overflow flag and remove oldest Queue element *)
      let q := set_queue_overflow true q in
      set_queue_tail (u32 (queue_tail q + 1) mod QUEUE_SIZE) q
    else
      let q := set_queue_overflow false q in
      set_num_elements_stored (u32 (num_elements_stored q + 1)) q in
  (* Add the new element and increase Queue back element position *)
  let* b := array_set (buffer q) (queue_head q) element in
  let q := set_buffer b q in
  let q := set_queue_head (u32 (queue_head q + 1) mod QUEUE_SIZE) q in
  (* Return push result on buffer overflow *)
  if queue_overflow q then Done (OVERFLOW, q) else Done (OK, q).

Definition pop q : SQueue T :=
  if empty q then q
  else
    let q := set_queue_tail (u32 (queue_tail q + 1) mod QUEUE_SIZE) q in
    let q := set_num_elements_stored (u32 (num_elements_stored q - 1)) q in
    set_queue_overflow false q.

(** [operator==] of the element type. *)
Variable eqb : T → T → bool.

(** The [for] loop of [contains], entered with loop variable [i]; [None]
    when [fuel] iterations were not enough to leave it. *)
Fixpoint contains_loop (fuel : nat) element q (i : Z)
  : option (outcome bool) :=
  if negb (i <? num_elements_stored q) then Some (Done false)
  else
    match fuel with
    | O => None
    | S fuel =>
        let index := usize (queue_tail q + i) mod QUEUE_SIZE in
        match array_get (buffer q) index with
        | Undefined => Some Undefined
        | Done y =>
            if eqb element y then Some (Done true)
            else contains_loop fuel element q (usize (i + 1))
        end
    end.

Definition contains element q : option (outcome bool) :=
  contains_loop (Z.to_nat (num_elements_stored q)) element q 0.

(** ** Observations and runs *)

(** What a caller reads through a pointer returned by [front] or [back]. *)
Definition pointee q (p : option Z) : outcome (option T) :=
  match p with
  | None => Done None
  | Some i => let* x := array_get (buffer q) i in Done (Some x)
  end.

Definition front_value q : outcome (option T) :=
  let* p := front q in pointee q p.

Definition back_value q : outcome (option T) :=
  let* p := back q in pointee q p.

(** One operation; a push also yields its result code. *)
Definition step (o : op T) q : outcome (option t_squeue_rc * SQueue T) :=
  match o with
  | Push element => let* (rc, q') := push element q in Done (Some rc, q')
  | Pop => Done (None, pop q)
  | Clear => Done (None, clear q)
  end.

Fixpoint run (ops : list (op T)) q : outcome (SQueue T) :=
  match ops with
  | [] => Done q
  | o :: ops => let* (_, q') := step o q in run ops q'
  end.

(** What a caller sees after each operation of a sequence, and before the
    first. *)
Definition observe (rc : option t_squeue_rc) q : outcome (obs T) :=
  let* f := front_value q in
  let* b := back_value q in
  Done (mkObs (rc_value <$> rc) f b (size q) (empty q)).

Fixpoint trace (ops : list (op T)) q : outcome (list (obs T)) :=
  match ops with
  | [] => Done []
  | o :: ops =>
      let* (rc, q') := step o q in
      let* ob := observe rc q' in
      let* tr := trace ops q' in
      Done (ob :: tr)
  end.

Definition observations (ops : list (op T)) q : outcome (list (obs T)) :=
  let* ob := observe None q in
  let* tr := trace ops q in
  Done (ob :: tr).

(** [push] of each element of [xs] in turn. *)
Definition push_all (xs : list T) q : outcome (SQueue T) :=
  run (Push <$> xs) q.

(** [k] times: look at [front], then [pop]. *)
Fixpoint drain (k : nat) q : outcome (list (option T) * SQueue T) :=
  match k with
  | O => Done ([], q)
  | S k =>
      let* v := front_value q in
      let* (vs, q') := drain k (pop q) in
      Done (v :: vs, q')
  end.

(** ** Invariants *)

(** The array has [QUEUE_SIZE] slots and the indexes are in range. *)
Definition bounded q : Prop :=
  Z.of_nat (length (buffer q)) = QUEUE_SIZE
  ∧ 0 ≤ queue_head q < QUEUE_SIZE
  ∧ 0 ≤ queue_tail q < QUEUE_SIZE
  ∧ 0 ≤ num_elements_stored q ≤ QUEUE_SIZE.

(** The head is [count] slots after the tail. *)
Definition linked q : Prop :=
  queue_head q = (queue_tail q + num_elements_stored q) mod QUEUE_SIZE.

Definition valid q : Prop := bounded q ∧ linked q.

(** The logically valid elements, oldest first. *)
Definition contents q : list T :=
  ring_window (buffer q) (queue_tail q) (num_elements_stored q).

(** The flag can only be up while the queue is full. *)
Definition flag_full q : Prop :=
  queue_overflow q = true → num_elements_stored q = QUEUE_SIZE.

(** Slot [k] of the logical window holds an element equal to [x]. *)
Definition match_at q (x : T) (k : Z) : Prop :=
  ∃ y, buffer q !! Z.to_nat ((queue_tail q + k) mod QUEUE_SIZE) = Some y
       ∧ eqb x y = true.

(** The state reached from a fresh queue by a sequence of operations. *)
Definition reachable q : Prop :=
  ∃ buf ops, Z.of_nat (length buf) = QUEUE_SIZE
             ∧ run ops (construct buf) = Done q.
End Methods.

End V1_1_0.
(** * Version 1.0.0 *)

Module V1_0_0.

(** [enum t_overflow]. *)
Inductive t_overflow : Type := BUFFER_OK | BUFFER_OVERFLOW.

Definition rc_value (rc : t_overflow) : Z :=
  match rc with
  | BUFFER_OK => 0
  | BUFFER_OVERFLOW => 1
  end.

Record SQueue (T : Type) : Type := mkSQueue {
  buffer : list T;
  queue_head : Z;
  queue_tail : Z;
  num_elements_stored : Z;
  buffer_overflow : bool;
}.
Arguments mkSQueue {T} _ _ _ _ _.
Arguments buffer {T} _.
Arguments queue_head {T} _.
Arguments queue_tail {T} _.
Arguments num_elements_stored {T} _.
Arguments buffer_overflow {T} _.

Section Methods.
Context {T : Type}.
Variable QUEUE_SIZE : Z.
Implicit Types (q : SQueue T) (element : T).

Definition set_buffer (b : list T) q : SQueue T :=
  mkSQueue b (queue_head q) (queue_tail q) (num_elements_stored q)
    (buffer_overflow q).
Definition set_queue_head (h : Z) q : SQueue T :=
  mkSQueue (buffer q) h (queue_tail q) (num_elements_stored q)
    (buffer_overflow q).
Definition set_queue_tail (t : Z) q : SQueue T :=
  mkSQueue (buffer q) (queue_head q) t (num_elements_stored q)
    (buffer_overflow q).
Definition set_num_elements_stored (c : Z) q : SQueue T :=
  mkSQueue (buffer q) (queue_head q) (queue_tail q) c (buffer_overflow q).
Definition set_buffer_overflow (o : bool) q : SQueue T :=
  mkSQueue (buffer q) (queue_head q) (queue_tail q) (num_elements_stored q) o.

Definition construct (buf : list T) : SQueue T :=
  let q := mkSQueue buf 0 0 0 false in
  let q := set_queue_head 0 q in
  let q := set_queue_tail 0 q in
  let q := set_num_elements_stored 0 q in
  set_buffer_overflow false q.

Definition clear q : SQueue T :=
  let q := set_queue_head 0 q in
  let q := set_queue_tail 0 q in
  let q := set_num_elements_stored 0 q in
  set_buffer_overflow false q.

Definition empty q : bool := num_elements_stored q =? 0.

Definition size q : Z := num_elements_stored q.

Definition full q : bool := QUEUE_SIZE <=? size q.

Definition front q : outcome (option Z) :=
  if empty q then Done None
  else
    let* p := array_ref (buffer q) (u32 (queue_tail q + 1) mod QUEUE_SIZE) in
    Done (Some p).

Definition back q : outcome (option Z) :=
  if empty q then Done None
  else
    let* p := array_ref (buffer q) (queue_head q) in
    Done (Some p).

Definition push element q : outcome (t_overflow * SQueue T) :=
  (* Handle if Queue is full or not *)
  let q :=
    if full q then
      (* Set overflow flag and remove oldest Queue element *)
      let q := set_buffer_overflow true q in
      set_queue_tail (u32 (queue_tail q + 1) mod QUEUE_SIZE) q
    else
      set_num_elements_stored (u32 (num_elements_stored q + 1)) q in
  (* Increase Queue back element position and add the new element *)
  let q := set_queue_head (u32 (queue_head q + 1) mod QUEUE_SIZE) q in
  let* b := array_set (buffer q) (queue_head q) element in
  let q := set_buffer b q in
  (* Return push result on buffer overflow *)
  if buffer_overflow q then Done (BUFFER_OVERFLOW, q)
  else Done (BUFFER_OK, q).

Definition pop q : SQueue T :=
  if empty q then q
  else
    let q := set_queue_tail (u32 (queue_tail q + 1) mod QUEUE_SIZE) q in
    let q := set_num_elements_stored (u32 (num_elements_stored q - 1)) q in
    set_buffer_overflow false q.

(** ** Observations and runs *)

Definition pointee q (p : option Z) : outcome (option T) :=
  match p with
  | None => Done None
  | Some i => let* x := array_get (buffer q) i in Done (Some x)
  end.

Definition front_value q : outcome (option T) :=
  let* p := front q in pointee q p.

Definition back_value q : outcome (option T) :=
  let* p := back q in pointee q p.

Definition step (o : op T) q : outcome (option t_overflow * SQueue T) :=
  match o with
  | Push element => let* (rc, q') := push element q in Done (Some rc, q')
  | Pop => Done (None, pop q)
  | Clear => Done (None, clear q)
  end.

(** What a caller sees after each operation of a sequence, and before the
    first. *)
Definition observe (rc : option t_overflow) q : outcome (obs T) :=
  let* f := front_value q in
  let* b := back_value q in
  Done (mkObs (rc_value <$> rc) f b (size q) (empty q)).

Fixpoint trace (ops : list (op T)) q : outcome (list (obs T)) :=
  match ops with
  | [] => Done []
  | o :: ops =>
      let* (rc, q') := step o q in
      let* ob := observe rc q' in
      let* tr := trace ops q' in
      Done (ob :: tr)
  end.

Definition observations (ops : list (op T)) q : outcome (list (obs T)) :=
  let* ob := observe None q in
  let* tr := trace ops q in
  Done (ob :: tr).

Fixpoint run (ops : list (op T)) q : outcome (SQueue T) :=
  match ops with
  | [] => Done q
  | o :: ops => let* (_, q') := step o q in run ops q'
  end.

(** ** Invariants *)

Definition bounded q : Prop :=
  Z.of_nat (length (buffer q)) = QUEUE_SIZE
  ∧ 0 ≤ queue_head q < QUEUE_SIZE
  ∧ 0 ≤ queue_tail q < QUEUE_SIZE
  ∧ 0 ≤ num_elements_stored q ≤ QUEUE_SIZE.

Definition linked q : Prop :=
  queue_head q = (queue_tail q + num_elements_stored q) mod QUEUE_SIZE.

(** The flag can only be up while the queue is full. *)
Definition flag_full q : Prop :=
  buffer_overflow q = true → num_elements_stored q = QUEUE_SIZE.

Definition valid q : Prop := bounded q ∧ linked q ∧ flag_full q.

(** The logically valid elements, oldest first: this version keeps them
    one slot after the tail. *)
Definition contents q : list T :=
  ring_window (buffer q) ((queue_tail q + 1) mod QUEUE_SIZE)
    (num_elements_stored q).
(** The state reached from a fresh queue by a sequence of operations. *)
Definition reachable q : Prop :=
  ∃ buf ops, Z.of_nat (length buf) = QUEUE_SIZE
             ∧ run ops (construct buf) = Done q.
End Methods.

End V1_0_0.

(** * Comparing the states of the two versions *)

(** Head, tail, count and flag agree. *)
Definition same_indexes {T : Type} (q1 : V1_1_0.SQueue T)
    (q0 : V1_0_0.SQueue T) : Prop :=
  V1_1_0.queue_head q1 = V1_0_0.queue_head q0
  ∧ V1_1_0.queue_tail q1 = V1_0_0.queue_tail q0
  ∧ V1_1_0.num_elements_stored q1 = V1_0_0.num_elements_stored q0
  ∧ V1_1_0.queue_overflow q1 = V1_0_0.buffer_overflow q0.

(** * The example program, [examples/generic/main.cpp] *)

Module Example.

(** A line written to the standard output by [show_queue_content]. *)
Inductive output (T : Type) : Type :=
| Queue_content                 (* "Queue Content:" *)
| No_more_elements              (* "No more elements in the queue" *)
| Element (i : Z) (element : T).  (* "  Element i: { ... }" *)
Arguments Queue_content {T}.
Arguments No_more_elements {T}.
Arguments Element {T} i element.

(** [i + 1] on [int]: overflowing a signed integer is undefined. *)
Definition int_succ (i : Z) : outcome Z :=
  if i + 1 <=? 2 ^ 31 - 1 then Done (i + 1) else Undefined.

Section Show.
Context {T : Type}.
Variable QUEUE_SIZE : Z.
Implicit Types (queue queue_copy : V1_1_0.SQueue T).

(** One [Element] line per element of a list, numbered from [i]. *)
Fixpoint listing (i : Z) (l : list T) : list (output T) :=
  match l with
  | [] => []
  | x :: l => Element i x :: listing (i + 1) l
  end.

(** The [while] loop of [show_queue_content], entered with counter [i];
    [None] when [fuel] iterations were not enough to leave it. *)
Fixpoint show_loop (fuel : nat) (i : Z) queue_copy
  : option (outcome (list (output T))) :=
  if negb (Bool.eqb (V1_1_0.empty queue_copy) false) then Some (Done [])
  else
    match fuel with
    | O => None
    | S fuel =>
        match V1_1_0.front queue_copy with
        | Undefined => Some Undefined
        | Done None => Some (Done [No_more_elements])
        | Done (Some element) =>
            let queue_copy := V1_1_0.pop QUEUE_SIZE queue_copy in
            (* the element is read through the pointer after the pop *)
            match array_get (V1_1_0.buffer queue_copy) element with
            | Undefined => Some Undefined
            | Done x =>
                match int_succ i with
                | Undefined => Some Undefined
                | Done i' =>
                    match show_loop fuel i' queue_copy with
                    | Some (Done out) => Some (Done (Element i x :: out))
                    | r => r
                    end
                end
            end
        end
    end.

Definition show_queue_content (fuel : nat) queue
  : option (outcome (list (output T))) :=
  if V1_1_0.empty queue then Some (Done [])
  else
    let i := 0 in
    let queue_copy := queue in
    match show_loop fuel i queue_copy with
    | Some (Done out) => Some (Done (Queue_content :: out))
    | r => r
    end.
End Show.
End Example.

(** * Concrete queues used to exercise the statements *)

Module Examples.
(** Capacity 3, storage initially zeroed. *)
Definition fresh3 : V1_1_0.SQueue Z := V1_1_0.construct [0; 0; 0].

(** Four pushes into capacity 3: the last one evicts 10. *)
Definition ops4 : list (op Z) := [Push 10; Push 20; Push 30; Push 40].
Definition after4 : V1_1_0.SQueue Z := V1_1_0.mkSQueue [40; 20; 30] 1 1 3 true.

(** A full queue of capacity 3 whose window wraps: 20, 30, 10. *)
Definition wrapped3 : V1_1_0.SQueue Z :=
  V1_1_0.mkSQueue [10; 20; 30] 1 1 3 false.

(** An empty queue whose indexes are not at zero. *)
Definition drained3 : V1_1_0.SQueue Z := V1_1_0.mkSQueue [4; 5; 6] 2 2 0 false.

(** Two elements in capacity 3, neither empty nor full. *)
Definition partial3 : V1_1_0.SQueue Z := V1_1_0.mkSQueue [10; 20; 30] 0 1 2 false.

(** Capacity 1: the queue after [push 7], and after a further [push 9]. *)
Definition single7 : V1_1_0.SQueue Z := V1_1_0.mkSQueue [7] 0 0 1 false.
Definition single9 : V1_1_0.SQueue Z := V1_1_0.mkSQueue [9] 0 0 1 true.
End Examples.

(** * Properties *)

(** ** Machine integers and arrays *)

Lemma u32_small z : 0 ≤ z < 2 ^ 32 → u32 z = z.
Proof. intros. unfold u32. by apply Z.mod_small. Qed.

Lemma usize_small z : 0 ≤ z < 2 ^ 64 → usize z = z.
Proof. intros. unfold usize. by apply Z.mod_small. Qed.

Section ArrayFacts.
Context {T : Type}.
Implicit Types (a : list T) (i : Z).

Lemma in_bounds_true a i :
  0 ≤ i < Z.of_nat (length a) → in_bounds a i = true.
Proof. intros. unfold in_bounds. by apply bool_decide_eq_true. Qed.

Lemma array_get_lookup a i :
  0 ≤ i < Z.of_nat (length a) →
  ∃ x, a !! Z.to_nat i = Some x ∧ array_get a i = Done x.
Proof.
  intros Hi. unfold array_get. rewrite in_bounds_true by done.
  destruct (lookup_lt_is_Some_2 a (Z.to_nat i)) as [x Hx]; [lia|].
  exists x. by rewrite Hx.
Qed.

Lemma array_get_Some a i x :
  0 ≤ i → a !! Z.to_nat i = Some x → array_get a i = Done x.
Proof.
  intros Hi Hx. unfold array_get.
  rewrite in_bounds_true, Hx; [done|].
  apply lookup_lt_Some in Hx. lia.
Qed.

Lemma array_set_ok a i x :
  0 ≤ i < Z.of_nat (length a) →
  array_set a i x = Done (<[Z.to_nat i := x]> a).
Proof. intros. unfold array_set. by rewrite in_bounds_true. Qed.

Lemma array_ref_ok a i :
  0 ≤ i < Z.of_nat (length a) → array_ref a i = Done i.
Proof. intros. unfold array_ref. by rewrite in_bounds_true. Qed.
End ArrayFacts.

(** ** Index arithmetic of a ring of [n] slots *)

Section RingArith.
Variable n : Z.
Hypothesis Hn : 1 ≤ n.

Lemma ring_wrap a :
  0 ≤ a < 2 * n → a mod n = if decide (a < n) then a else a - n.
Proof using Hn.
  intros Ha. case_decide.
  - apply Z.mod_small. lia.
  - symmetry. apply (Z.mod_unique a n 1); lia.
Qed.

Lemma ring_range a : 0 ≤ a mod n < n.
Proof using Hn. apply Z.mod_pos_bound. lia. Qed.

Lemma ring_prev h :
  0 ≤ h < n → (if h =? 0 then n - 1 else h - 1) = (h - 1) mod n.
Proof using Hn.
  intros Hh. destruct (Z.eqb_spec h 0) as [->|Hne].
  - apply (Z.mod_unique (0 - 1) n (-1)); lia.
  - symmetry. apply Z.mod_small. lia.
Qed.
End RingArith.

(** Unfolds every [a mod n] whose argument lies in [0, 2n), innermost
    first, and splits on the wrap. *)
Ltac ring_cases Hn :=
  repeat first
    [ match goal with
      | |- context [?a mod ?m] => rewrite (ring_wrap m Hn a) by lia
      end
    | case_decide ].

Section RingWindow.
Context {T : Type}.
Variable n : Z.
Hypothesis Hn : 1 ≤ n.
Implicit Types (buf : list T) (s len : Z) (k : nat).

Lemma ring_window_length buf s len :
  Z.of_nat (length buf) = n → 0 ≤ s < n → 0 ≤ len ≤ n →
  Z.of_nat (length (ring_window buf s len)) = len.
Proof using Hn.
  intros Hb Hs Hl. unfold ring_window.
  rewrite length_take, length_drop, length_app. lia.
Qed.

Lemma ring_window_lookup buf s len k :
  Z.of_nat (length buf) = n → 0 ≤ s < n → 0 ≤ len ≤ n →
  Z.of_nat k < len →
  ring_window buf s len !! k = buf !! Z.to_nat ((s + Z.of_nat k) mod n).
Proof using Hn.
  intros Hb Hs Hl Hk. unfold ring_window.
  rewrite lookup_take_lt by lia. rewrite lookup_drop.
  rewrite ring_wrap by lia. case_decide.
  - rewrite lookup_app_l by lia. f_equal. lia.
  - rewrite lookup_app_r by lia. f_equal. lia.
Qed.

Lemma ring_window_lookup_ge buf s len k :
  Z.of_nat (length buf) = n → 0 ≤ s < n → 0 ≤ len ≤ n →
  len ≤ Z.of_nat k → ring_window buf s len !! k = None.
Proof using Hn.
  intros Hb Hs Hl Hk. apply lookup_ge_None.
  pose proof (ring_window_length buf s len Hb Hs Hl). lia.
Qed.

Lemma ring_window_empty buf s : ring_window buf s 0 = [].
Proof. done. Qed.

(** Writing the slot just after the window extends the window. *)
Lemma ring_window_snoc buf s len e :
  Z.of_nat (length buf) = n → 0 ≤ s < n → 0 ≤ len < n →
  ring_window (<[Z.to_nat ((s + len) mod n) := e]> buf) s (len + 1)
  = ring_window buf s len ++ [e].
Proof using Hn.
  intros Hb Hs Hl. apply list_eq. intros k.
  assert (Hb' : Z.of_nat (length (<[Z.to_nat ((s + len) mod n) := e]> buf)) = n)
    by (by rewrite length_insert).
  pose proof (ring_window_length buf s len Hb Hs ltac:(lia)) as Hlen.
  destruct (decide (Z.of_nat k < len)) as [Hk|Hk].
  - rewrite ring_window_lookup by (done || lia).
    rewrite lookup_app_l by lia.
    rewrite ring_window_lookup by (done || lia).
    apply list_lookup_insert_ne.
    ring_cases Hn; lia.
  - destruct (decide (Z.of_nat k = len)) as [Hk'|Hk'].
    + rewrite ring_window_lookup by (done || lia).
      rewrite lookup_app_r by lia.
      replace (k - length (ring_window buf s len))%nat with 0%nat by lia.
      rewrite Hk'. simpl. apply list_lookup_insert_eq.
      pose proof (ring_range n Hn (s + len)). lia.
    + rewrite ring_window_lookup_ge by (done || lia).
      symmetry. apply lookup_ge_None. rewrite length_app. simpl. lia.
Qed.

(** Advancing the start of the window drops its first element. *)
Lemma ring_window_advance buf s len :
  Z.of_nat (length buf) = n → 0 ≤ s < n → 0 < len ≤ n →
  ring_window buf ((s + 1) mod n) (len - 1) = drop 1 (ring_window buf s len).
Proof using Hn.
  intros Hb Hs Hl. apply list_eq. intros k.
  pose proof (ring_range n Hn (s + 1)) as Hs'.
  rewrite lookup_drop.
  destruct (decide (Z.of_nat k < len - 1)) as [Hk|Hk].
  - rewrite !ring_window_lookup by (done || lia).
    f_equal. f_equal. ring_cases Hn; lia.
  - rewrite !ring_window_lookup_ge by (done || lia). done.
Qed.

(** A push into a full ring: the oldest slot is overwritten and becomes
    the newest. *)
Lemma ring_window_overwrite buf s e :
  Z.of_nat (length buf) = n → 0 ≤ s < n →
  ring_window (<[Z.to_nat s := e]> buf) ((s + 1) mod n) n
  = drop 1 (ring_window buf s n) ++ [e].
Proof using Hn.
  intros Hb Hs.
  pose proof (ring_range n Hn (s + 1)) as Hs'.
  rewrite <- (ring_window_advance buf s n) by (done || lia).
  pose proof (ring_window_snoc buf ((s + 1) mod n) (n - 1) e Hb Hs'
                ltac:(lia)) as Hsnoc.
  replace (((s + 1) mod n + (n - 1)) mod n) with s in Hsnoc
    by (ring_cases Hn; lia).
  by replace (n - 1 + 1) with n in Hsnoc by lia.
Qed.

Lemma ring_window_head buf s len :
  Z.of_nat (length buf) = n → 0 ≤ s < n → 0 < len ≤ n →
  head (ring_window buf s len) = buf !! Z.to_nat s.
Proof using Hn.
  intros Hb Hs Hl. rewrite head_lookup.
  rewrite ring_window_lookup by (done || lia).
  f_equal. f_equal. ring_cases Hn; lia.
Qed.

Lemma ring_window_last buf s len :
  Z.of_nat (length buf) = n → 0 ≤ s < n → 0 < len ≤ n →
  last (ring_window buf s len) = buf !! Z.to_nat ((s + len - 1) mod n).
Proof using Hn.
  intros Hb Hs Hl. rewrite last_lookup.
  pose proof (ring_window_length buf s len Hb Hs ltac:(lia)) as Hlen.
  rewrite ring_window_lookup by (done || lia).
  f_equal. f_equal. f_equal. lia.
Qed.
End RingWindow.


(** ** Version 1.1.0: the operations on states within bounds *)

Section V110_Steps.
Import V1_1_0.
Context {T : Type}.
Variable QUEUE_SIZE : Z.
Hypothesis Hsize : 1 ≤ QUEUE_SIZE < 2 ^ 32.
Implicit Types (q : SQueue T) (e : T).

Local Lemma queue_size_pos : 1 ≤ QUEUE_SIZE.
Proof using Hsize. lia. Qed.

Lemma full_true q :
  full QUEUE_SIZE q = true ↔ QUEUE_SIZE ≤ num_elements_stored q.
Proof. unfold full. apply Z.leb_le. Qed.

Lemma full_false q :
  full QUEUE_SIZE q = false ↔ num_elements_stored q < QUEUE_SIZE.
Proof. unfold full. apply Z.leb_gt. Qed.

Lemma empty_true q : empty q = true ↔ num_elements_stored q = 0.
Proof. unfold empty. apply Z.eqb_eq. Qed.

Lemma empty_false q : empty q = false ↔ num_elements_stored q ≠ 0.
Proof. unfold empty. apply Z.eqb_neq. Qed.

Lemma bounded_construct (buf : list T) :
  Z.of_nat (length buf) = QUEUE_SIZE → bounded QUEUE_SIZE (construct buf).
Proof using Hsize. intros Hb. unfold bounded. simpl. lia. Qed.

Lemma linked_construct (buf : list T) : linked QUEUE_SIZE (construct buf).
Proof using Hsize. unfold linked. simpl. by rewrite Z.mod_0_l by lia. Qed.

(** [push] without the machine arithmetic. *)
Lemma push_eq e q :
  bounded QUEUE_SIZE q →
  push QUEUE_SIZE e q
  = Done (if full QUEUE_SIZE q then OVERFLOW else OK,
          mkSQueue (<[Z.to_nat (queue_head q) := e]> (buffer q))
            ((queue_head q + 1) mod QUEUE_SIZE)
            (if full QUEUE_SIZE q then (queue_tail q + 1) mod QUEUE_SIZE
             else queue_tail q)
            (if full QUEUE_SIZE q then num_elements_stored q
             else num_elements_stored q + 1)
            (full QUEUE_SIZE q)).
Proof using Hsize.
  intros (Hb & Hh & Ht & Hc). unfold push.
  destruct (full QUEUE_SIZE q) eqn:Hf; simpl;
    rewrite array_set_ok by lia; simpl;
    rewrite !u32_small by (apply full_false in Hf || idtac; lia); done.
Qed.

(** [pop] without the machine arithmetic. *)
Lemma pop_eq q :
  bounded QUEUE_SIZE q →
  pop QUEUE_SIZE q
  = if empty q then q
    else mkSQueue (buffer q) (queue_head q)
           ((queue_tail q + 1) mod QUEUE_SIZE)
           (num_elements_stored q - 1) false.
Proof using Hsize.
  intros (Hb & Hh & Ht & Hc). unfold pop.
  destruct (empty q) eqn:He; [done|]. apply empty_false in He.
  unfold set_queue_tail, set_num_elements_stored, set_queue_overflow. simpl.
  rewrite !u32_small by lia. done.
Qed.

Lemma push_bounded e q rc q' :
  bounded QUEUE_SIZE q → push QUEUE_SIZE e q = Done (rc, q') →
  bounded QUEUE_SIZE q'.
Proof using Hsize.
  intros Hq Hp. rewrite push_eq in Hp by done.
  destruct Hq as (Hb & Hh & Ht & Hc).
  pose proof (ring_range QUEUE_SIZE queue_size_pos (queue_head q + 1)).
  pose proof (ring_range QUEUE_SIZE queue_size_pos (queue_tail q + 1)).
  injection Hp as _ <-. unfold bounded. simpl. rewrite length_insert.
  destruct (full QUEUE_SIZE q) eqn:Hf;
    [apply full_true in Hf | apply full_false in Hf]; lia.
Qed.

Lemma pop_bounded q : bounded QUEUE_SIZE q → bounded QUEUE_SIZE (pop QUEUE_SIZE q).
Proof using Hsize.
  intros Hq. rewrite pop_eq by done.
  destruct (empty q) eqn:He; [done|]. apply empty_false in He.
  destruct Hq as (Hb & Hh & Ht & Hc).
  pose proof (ring_range QUEUE_SIZE queue_size_pos (queue_tail q + 1)).
  unfold bounded. simpl. lia.
Qed.

Lemma clear_bounded q : bounded QUEUE_SIZE q → bounded QUEUE_SIZE (clear q).
Proof using Hsize. intros (Hb & _). unfold bounded. simpl. lia. Qed.

Lemma push_linked e q rc q' :
  valid QUEUE_SIZE q → push QUEUE_SIZE e q = Done (rc, q') →
  linked QUEUE_SIZE q'.
Proof using Hsize.
  intros [Hq Hl] Hp. rewrite push_eq in Hp by done.
  destruct Hq as (Hb & Hh & Ht & Hc).
  injection Hp as _ <-. unfold linked in *. simpl. rewrite Hl.
  pose proof queue_size_pos as Hn.
  destruct (full QUEUE_SIZE q) eqn:Hf;
    [apply full_true in Hf | apply full_false in Hf];
    ring_cases Hn; lia.
Qed.

Lemma pop_linked q : valid QUEUE_SIZE q → linked QUEUE_SIZE (pop QUEUE_SIZE q).
Proof using Hsize.
  intros [Hq Hl]. rewrite pop_eq by done.
  destruct (empty q) eqn:He; [done|]. apply empty_false in He.
  destruct Hq as (Hb & Hh & Ht & Hc).
  unfold linked in *. simpl. rewrite Hl.
  pose proof queue_size_pos as Hn. ring_cases Hn; lia.
Qed.

Lemma clear_linked q : linked QUEUE_SIZE (clear q).
Proof using Hsize. unfold linked. simpl. by rewrite Z.mod_0_l by lia. Qed.

Lemma valid_construct (buf : list T) :
  Z.of_nat (length buf) = QUEUE_SIZE → valid QUEUE_SIZE (construct buf).
Proof using Hsize.
  intros Hb. split; [by apply bounded_construct | apply linked_construct].
Qed.

Lemma push_valid e q rc q' :
  valid QUEUE_SIZE q → push QUEUE_SIZE e q = Done (rc, q') →
  valid QUEUE_SIZE q'.
Proof using Hsize.
  intros Hq Hp. split; [eapply push_bounded | eapply push_linked]; eauto.
  apply Hq.
Qed.

Lemma pop_valid q : valid QUEUE_SIZE q → valid QUEUE_SIZE (pop QUEUE_SIZE q).
Proof using Hsize.
  intros Hq. split; [apply pop_bounded, Hq | by apply pop_linked].
Qed.

Lemma clear_valid q : valid QUEUE_SIZE q → valid QUEUE_SIZE (clear q).
Proof using Hsize.
  intros Hq. split; [apply clear_bounded, Hq | apply clear_linked].
Qed.

(** *** The logical contents *)

Lemma contents_construct (buf : list T) : contents (construct buf) = [].
Proof. done. Qed.

Lemma contents_clear q : contents (clear q) = [].
Proof. done. Qed.

Lemma contents_length q :
  bounded QUEUE_SIZE q →
  Z.of_nat (length (contents q)) = num_elements_stored q.
Proof using Hsize.
  intros (Hb & Hh & Ht & Hc).
  by apply (ring_window_length QUEUE_SIZE queue_size_pos).
Qed.

Lemma contents_lookup q (k : nat) :
  bounded QUEUE_SIZE q → Z.of_nat k < num_elements_stored q →
  contents q !! k
  = buffer q !! Z.to_nat ((queue_tail q + Z.of_nat k) mod QUEUE_SIZE).
Proof using Hsize.
  intros (Hb & Hh & Ht & Hc) Hk.
  by apply (ring_window_lookup QUEUE_SIZE queue_size_pos).
Qed.

Lemma contents_nil q :
  bounded QUEUE_SIZE q → (contents q = [] ↔ empty q = true).
Proof using Hsize.
  intros Hq. pose proof (contents_length q Hq) as Hlen.
  rewrite empty_true. split.
  - intros Hnil. rewrite Hnil in Hlen. simpl in Hlen. lia.
  - intros Hc. apply length_zero_iff_nil. lia.
Qed.

Lemma push_contents e q rc q' :
  valid QUEUE_SIZE q → push QUEUE_SIZE e q = Done (rc, q') →
  contents q'
  = if full QUEUE_SIZE q then drop 1 (contents q) ++ [e]
    else contents q ++ [e].
Proof using Hsize.
  intros [Hq Hl] Hp. rewrite push_eq in Hp by done.
  destruct Hq as (Hb & Hh & Ht & Hc).
  injection Hp as _ <-. unfold contents, linked in *. simpl.
  destruct (full QUEUE_SIZE q) eqn:Hf;
    [apply full_true in Hf | apply full_false in Hf].
  - assert (Hfull : num_elements_stored q = QUEUE_SIZE) by lia.
    assert (Hht : queue_head q = queue_tail q).
    { rewrite Hl, Hfull. pose proof queue_size_pos as Hn.
      ring_cases Hn; lia. }
    rewrite Hht, Hfull.
    by apply (ring_window_overwrite QUEUE_SIZE queue_size_pos).
  - rewrite Hl.
    apply (ring_window_snoc QUEUE_SIZE queue_size_pos); (done || lia).
Qed.

Lemma pop_contents q :
  bounded QUEUE_SIZE q → contents (pop QUEUE_SIZE q) = drop 1 (contents q).
Proof using Hsize.
  intros Hq. rewrite pop_eq by done.
  destruct (empty q) eqn:He.
  - apply contents_nil in He; [|done]. by rewrite He.
  - apply empty_false in He. destruct Hq as (Hb & Hh & Ht & Hc).
    unfold contents. simpl.
    apply (ring_window_advance QUEUE_SIZE queue_size_pos); (done || lia).
Qed.

(** *** The pointers returned by [front] and [back] *)

Lemma front_eq q :
  bounded QUEUE_SIZE q →
  front q = Done (if empty q then None else Some (queue_tail q)).
Proof using Hsize.
  intros (Hb & Hh & Ht & Hc). unfold front.
  destruct (empty q); [done|]. by rewrite array_ref_ok by lia.
Qed.

Lemma back_eq q :
  bounded QUEUE_SIZE q →
  back QUEUE_SIZE q
  = Done (if empty q then None
          else Some ((queue_head q - 1) mod QUEUE_SIZE)).
Proof using Hsize.
  intros (Hb & Hh & Ht & Hc). unfold back.
  destruct (empty q); [done|].
  rewrite <- (ring_prev QUEUE_SIZE queue_size_pos) by done.
  destruct (queue_head q =? 0) eqn:H0;
    [|apply Z.eqb_neq in H0];
    rewrite u32_small by lia; by rewrite array_ref_ok by lia.
Qed.

Lemma front_value_eq q :
  bounded QUEUE_SIZE q → front_value q = Done (head (contents q)).
Proof using Hsize.
  intros Hq. unfold front_value. rewrite front_eq by done.
  destruct (empty q) eqn:He; simpl.
  - apply contents_nil in He; [|done]. by rewrite He.
  - apply empty_false in He. destruct Hq as (Hb & Hh & Ht & Hc).
    unfold contents.
    rewrite (ring_window_head QUEUE_SIZE queue_size_pos) by (done || lia).
    destruct (array_get_lookup (buffer q) (queue_tail q)) as (x & Hx & ->);
      [lia|]. by rewrite Hx.
Qed.

Lemma back_value_eq q :
  valid QUEUE_SIZE q → back_value QUEUE_SIZE q = Done (last (contents q)).
Proof using Hsize.
  intros [Hq Hl]. unfold back_value. rewrite back_eq by done.
  destruct (empty q) eqn:He; simpl.
  - apply contents_nil in He; [|done]. by rewrite He.
  - apply empty_false in He. destruct Hq as (Hb & Hh & Ht & Hc).
    unfold contents.
    rewrite (ring_window_last QUEUE_SIZE queue_size_pos) by (done || lia).
    assert (Hidx : (queue_head q - 1) mod QUEUE_SIZE
                   = (queue_tail q + num_elements_stored q - 1)
                       mod QUEUE_SIZE).
    { unfold linked in Hl. rewrite Hl. pose proof queue_size_pos as Hn.
      rewrite <- !(ring_prev QUEUE_SIZE Hn)
        by (ring_cases Hn; lia).
      ring_cases Hn; repeat case_match; lia. }
    rewrite <- Hidx.
    pose proof (ring_range QUEUE_SIZE queue_size_pos (queue_head q - 1)).
    destruct (array_get_lookup (buffer q)
                ((queue_head q - 1) mod QUEUE_SIZE)) as (x & Hx & ->);
      [lia|]. by rewrite Hx.
Qed.
End V110_Steps.

(** ** Version 1.1.0: sequences of operations *)

Section V110_Runs.
Import V1_1_0.
Context {T : Type}.
Variable QUEUE_SIZE : Z.
Hypothesis Hsize : 1 ≤ QUEUE_SIZE < 2 ^ 32.
Implicit Types (q : SQueue T) (e : T) (ops : list (op T)) (xs : list T).

Lemma step_valid o q :
  valid QUEUE_SIZE q →
  ∃ r q', step QUEUE_SIZE o q = Done (r, q') ∧ valid QUEUE_SIZE q'.
Proof using Hsize.
  intros Hq. destruct o as [e| |]; simpl.
  - pose proof (push_eq QUEUE_SIZE Hsize e q (proj1 Hq)) as Hp.
    rewrite Hp. simpl. eexists _, _. split; [done|].
    by eapply push_valid.
  - eexists _, _. split; [done|]. by apply pop_valid.
  - eexists _, _. split; [done|]. by apply clear_valid.
Qed.

Lemma run_valid ops q :
  valid QUEUE_SIZE q →
  ∃ q', run QUEUE_SIZE ops q = Done q' ∧ valid QUEUE_SIZE q'.
Proof using Hsize.
  revert q. induction ops as [|o ops IH]; intros q Hq; simpl.
  - by exists q.
  - destruct (step_valid o q Hq) as (r & q1 & -> & Hq1). simpl.
    by apply IH.
Qed.

Lemma run_snoc ops o q :
  run QUEUE_SIZE (ops ++ [o]) q
  = let* q1 := run QUEUE_SIZE ops q in
    let* (_, q2) := step QUEUE_SIZE o q1 in Done q2.
Proof.
  revert q. induction ops as [|o' ops IH]; intros q; simpl.
  - destruct (step QUEUE_SIZE o q) as [[r q1]|]; done.
  - destruct (step QUEUE_SIZE o' q) as [[r q1]|]; simpl; [apply IH|done].
Qed.

Lemma reachable_valid q : reachable QUEUE_SIZE q → valid QUEUE_SIZE q.
Proof using Hsize.
  intros (buf & ops & Hb & Hrun).
  destruct (run_valid ops (construct buf)) as (q' & Hrun' & Hq').
  { by apply valid_construct. }
  congruence.
Qed.

Lemma push_all_contents xs q :
  valid QUEUE_SIZE q →
  num_elements_stored q + Z.of_nat (length xs) ≤ QUEUE_SIZE →
  ∃ q', push_all QUEUE_SIZE xs q = Done q'
        ∧ valid QUEUE_SIZE q'
        ∧ contents q' = contents q ++ xs.
Proof using Hsize.
  unfold push_all. revert q.
  induction xs as [|x xs IH]; intros q Hq Hlen; simpl in *.
  - exists q. by rewrite app_nil_r.
  - pose proof (push_eq QUEUE_SIZE Hsize x q (proj1 Hq)) as Hp.
    assert (Hf : full QUEUE_SIZE q = false) by (apply full_false; lia).
    pose proof (push_contents QUEUE_SIZE Hsize x q _ _ Hq Hp) as Hc.
    pose proof (push_valid QUEUE_SIZE Hsize x q _ _ Hq Hp) as Hv.
    rewrite Hp. rewrite Hf in *. simpl.
    match goal with
    | |- context [run _ _ ?q1] =>
        destruct (IH q1) as (q' & Hrun & Hq' & Hc')
    end; [done | simpl; lia |].
    exists q'. split; [done|]. split; [done|].
    by rewrite Hc', Hc, <- app_assoc.
Qed.

Lemma drain_contents k q :
  valid QUEUE_SIZE q → Z.of_nat k ≤ num_elements_stored q →
  ∃ q', drain QUEUE_SIZE k q = Done (Some <$> take k (contents q), q')
        ∧ valid QUEUE_SIZE q'
        ∧ contents q' = drop k (contents q).
Proof using Hsize.
  revert q. induction k as [|k IH]; intros q Hq Hk; simpl.
  - exists q. by rewrite drop_0.
  - rewrite (front_value_eq QUEUE_SIZE Hsize) by apply Hq. simpl.
    pose proof (contents_length QUEUE_SIZE Hsize q (proj1 Hq)) as Hlen.
    pose proof (pop_contents QUEUE_SIZE Hsize q (proj1 Hq)) as Hpop.
    destruct (contents q) as [|x l] eqn:Hc; simpl in Hlen; [lia|].
    destruct (IH (pop QUEUE_SIZE q)) as (q' & Hd & Hq' & Hc').
    { by apply pop_valid. }
    { pose proof (contents_length QUEUE_SIZE Hsize _
                    (proj1 (pop_valid QUEUE_SIZE Hsize q Hq))) as Hlen'.
      rewrite Hpop in Hlen'. simpl in Hlen'. rewrite drop_0 in Hlen'. lia. }
    rewrite Hd. simpl. exists q'. rewrite Hpop in *. simpl in *.
    rewrite drop_0 in *. done.
Qed.
End V110_Runs.

(** ** The bounded list *)

Section Model_Facts.
Context {T : Type}.
Variable N : Z.
Implicit Types (l : list T) (ops : list (op T)).

Lemma model_run_snoc ops o l :
  RingQueue.run N (ops ++ [o]) l
  = snd (RingQueue.step N o (RingQueue.run N ops l)).
Proof.
  revert l. induction ops as [|o' ops IH]; intros l; simpl; [done|].
  apply IH.
Qed.

Lemma last_drop_1 l : drop 1 l ≠ [] → last (drop 1 l) = last l.
Proof. destruct l as [|a [|b l]]; done. Qed.

Lemma last_pushed_snoc ops o :
  last_pushed (ops ++ [o])
  = match pushed o with
    | Some e => Some e
    | None => last_pushed ops
    end.
Proof.
  unfold last_pushed. rewrite omap_app. simpl.
  destruct (pushed o) as [e|]; simpl.
  - apply last_snoc.
  - by rewrite app_nil_r.
Qed.

(** The newest element of the list is the one pushed last. *)
Lemma model_last_pushed ops :
  RingQueue.run N ops [] ≠ [] →
  last (RingQueue.run N ops []) = last_pushed ops.
Proof.
  induction ops as [|o ops IH] using rev_ind; [done|].
  rewrite model_run_snoc, last_pushed_snoc.
  destruct o as [e| |]; simpl.
  - intros _. unfold RingQueue.push.
  destruct (N <=? _); simpl; apply last_snoc.
  - unfold RingQueue.pop. intros Hne. rewrite last_drop_1 by done.
    apply IH. intros Hnil. by rewrite Hnil in Hne.
  - done.
Qed.
End Model_Facts.

(** ** Version 1.1.0 implements the bounded list *)

Section V110_Refinement.
Import V1_1_0.
Context {T : Type}.
Variable QUEUE_SIZE : Z.
Hypothesis Hsize : 1 ≤ QUEUE_SIZE < 2 ^ 32.
Implicit Types (q : SQueue T) (e : T) (ops : list (op T)).

Lemma step_refines o q :
  valid QUEUE_SIZE q →
  ∃ rc q', step QUEUE_SIZE o q = Done (rc, q')
           ∧ valid QUEUE_SIZE q'
           ∧ RingQueue.step QUEUE_SIZE o (contents q)
             = (rc_value <$> rc, contents q').
Proof using Hsize.
  intros Hq. pose proof (contents_length QUEUE_SIZE Hsize q (proj1 Hq)) as Hlen.
  destruct o as [e| |]; simpl.
  - pose proof (push_eq QUEUE_SIZE Hsize e q (proj1 Hq)) as Hp.
    pose proof (push_contents QUEUE_SIZE Hsize e q _ _ Hq Hp) as Hc.
    pose proof (push_valid QUEUE_SIZE Hsize e q _ _ Hq Hp) as Hv.
    rewrite Hp. simpl. eexists _, _. split; [done|]. split; [done|].
    rewrite Hc. unfold RingQueue.push, full. rewrite Hlen.
    by destruct (QUEUE_SIZE <=? num_elements_stored q).
  - eexists _, _. split; [done|]. split; [by apply pop_valid|].
    by rewrite (pop_contents QUEUE_SIZE Hsize) by apply Hq.
  - eexists _, _. split; [done|]. split; [by apply clear_valid|]. done.
Qed.

Lemma observe_refines rc q :
  valid QUEUE_SIZE q →
  observe QUEUE_SIZE rc q
  = Done (RingQueue.observe (rc_value <$> rc) (contents q)).
Proof using Hsize.
  intros Hq. unfold observe, RingQueue.observe.
  rewrite (front_value_eq QUEUE_SIZE Hsize) by apply Hq.
  rewrite (back_value_eq QUEUE_SIZE Hsize) by done. simpl.
  by rewrite (contents_length QUEUE_SIZE Hsize) by apply Hq.
Qed.

Lemma trace_refines ops q :
  valid QUEUE_SIZE q →
  trace QUEUE_SIZE ops q = Done (RingQueue.trace QUEUE_SIZE ops (contents q)).
Proof using Hsize.
  revert q. induction ops as [|o ops IH]; intros q Hq; simpl; [done|].
  destruct (step_refines o q Hq) as (rc & q' & -> & Hq' & ->). simpl.
  rewrite observe_refines by done. simpl.
  by rewrite IH by done.
Qed.

Lemma observations_refine ops q :
  valid QUEUE_SIZE q →
  observations QUEUE_SIZE ops q
  = Done (RingQueue.observations QUEUE_SIZE ops (contents q)).
Proof using Hsize.
  intros Hq. unfold observations, RingQueue.observations.
  rewrite observe_refines by done. simpl.
  by rewrite trace_refines by done.
Qed.

Lemma run_refines ops q :
  valid QUEUE_SIZE q →
  ∃ q', run QUEUE_SIZE ops q = Done q'
        ∧ valid QUEUE_SIZE q'
        ∧ contents q' = RingQueue.run QUEUE_SIZE ops (contents q).
Proof using Hsize.
  revert q. induction ops as [|o ops IH]; intros q Hq; simpl.
  - by exists q.
  - destruct (step_refines o q Hq) as (rc & q1 & -> & Hq1 & ->). simpl.
    by apply IH.
Qed.
End V110_Refinement.

(** ** Version 1.1.0: the scan of [contains] *)

Section V110_Contains.
Import V1_1_0.
Context {T : Type}.
Variable QUEUE_SIZE : Z.
Hypothesis Hsize : 1 ≤ QUEUE_SIZE < 2 ^ 32.
Variable eqb : T → T → bool.
Implicit Types (q : SQueue T) (x y : T).

Lemma contains_slot q (i : Z) :
  bounded QUEUE_SIZE q → 0 ≤ i < num_elements_stored q →
  ∃ y, buffer q !! Z.to_nat ((queue_tail q + i) mod QUEUE_SIZE) = Some y
       ∧ array_get (buffer q) (usize (queue_tail q + i) mod QUEUE_SIZE)
         = Done y.
Proof using Hsize.
  intros (Hb & Hh & Ht & Hc) Hi.
  rewrite usize_small by lia.
  apply array_get_lookup.
  pose proof (ring_range QUEUE_SIZE (queue_size_pos QUEUE_SIZE Hsize)
                (queue_tail q + i)). lia.
Qed.

Lemma contains_loop_spec q x (fuel : nat) (i : Z) :
  bounded QUEUE_SIZE q →
  0 ≤ i ≤ num_elements_stored q →
  num_elements_stored q - i ≤ Z.of_nat fuel →
  ∃ b, contains_loop QUEUE_SIZE eqb fuel x q i = Some (Done b)
       ∧ (b = true ↔ ∃ k, i ≤ k < num_elements_stored q ∧ match_at QUEUE_SIZE eqb q x k).
Proof using Hsize.
  intros Hq. revert i. induction fuel as [|fuel IH]; intros i Hi Hfuel.
  - simpl. assert (i = num_elements_stored q) as -> by lia.
    rewrite Z.ltb_irrefl. simpl. exists false. split; [done|].
    split; [done|]. intros (k & Hk & _). lia.
  - simpl. destruct (i <? num_elements_stored q) eqn:Hlt; simpl.
    + apply Z.ltb_lt in Hlt.
      destruct (contains_slot q i Hq ltac:(lia)) as (y & Hy & ->).
      destruct (eqb x y) eqn:Hxy.
      * exists true. split; [done|]. split; [|done]. intros _.
        exists i. split; [lia|]. by exists y.
      * destruct Hq as (Hb & Hh & Ht & Hc).
        rewrite usize_small by lia.
        destruct (IH (i + 1)) as (b & -> & Hiff); [lia | lia |].
        exists b. split; [done|]. rewrite Hiff. split.
        -- intros (k & Hk & Hm). exists k. split; [lia | done].
        -- intros (k & Hk & Hm). exists k. split; [|done].
           destruct (decide (k = i)) as [->|]; [|lia].
           destruct Hm as (y' & Hy' & Hxy'). congruence.
    + apply Z.ltb_ge in Hlt. exists false. split; [done|].
      split; [done|]. intros (k & Hk & _). lia.
Qed.

(** A match at slot [k] ends the scan within [k + 1] iterations. *)
Lemma contains_loop_stops q x (fuel : nat) (i k : Z) :
  bounded QUEUE_SIZE q →
  0 ≤ i ≤ k → k < num_elements_stored q → match_at QUEUE_SIZE eqb q x k →
  k - i < Z.of_nat fuel →
  contains_loop QUEUE_SIZE eqb fuel x q i = Some (Done true).
Proof using Hsize.
  intros Hq. revert i. induction fuel as [|fuel IH]; intros i Hi Hk Hm Hfuel.
  - lia.
  - simpl. destruct (i <? num_elements_stored q) eqn:Hlt; simpl.
    + apply Z.ltb_lt in Hlt.
      destruct (contains_slot q i Hq ltac:(lia)) as (y & Hy & ->).
      destruct (eqb x y) eqn:Hxy; [done|].
      destruct Hq as (Hb & Hh & Ht & Hc).
      rewrite usize_small by lia.
      apply IH; [|done|done|lia].
      destruct (decide (k = i)) as [->|]; [|lia].
      destruct Hm as (y' & Hy' & Hxy'). congruence.
    + apply Z.ltb_ge in Hlt. lia.
Qed.

(** The slots of the window are the elements of [contents]. *)
Lemma match_at_contents q x :
  bounded QUEUE_SIZE q →
  (∃ k, 0 ≤ k < num_elements_stored q ∧ match_at QUEUE_SIZE eqb q x k)
  ↔ (∃ y, y ∈ contents q ∧ eqb x y = true).
Proof using Hsize.
  intros Hq. pose proof (contents_length QUEUE_SIZE Hsize q Hq) as Hlen.
  split.
  - intros (k & Hk & y & Hy & Hxy). exists y. split; [|done].
    apply list_elem_of_lookup. exists (Z.to_nat k).
    rewrite (contents_lookup QUEUE_SIZE Hsize) by (done || lia).
    by rewrite Z2Nat.id by lia.
  - intros (y & Hin & Hxy). apply list_elem_of_lookup in Hin as [k Hk].
    pose proof (lookup_lt_Some _ _ _ Hk) as Hlt.
    exists (Z.of_nat k). split; [lia|]. exists y. split; [|done].
    by rewrite <- (contents_lookup QUEUE_SIZE Hsize) by (done || lia).
Qed.
End V110_Contains.

(** ** Version 1.0.0 implements the bounded list *)

Section V100_Refinement.
Import V1_0_0.
Context {T : Type}.
Variable QUEUE_SIZE : Z.
Hypothesis Hsize : 1 ≤ QUEUE_SIZE < 2 ^ 32.
Implicit Types (q : SQueue T) (e : T) (ops : list (op T)).

Local Lemma v100_size_pos : 1 ≤ QUEUE_SIZE.
Proof using Hsize. lia. Qed.

Lemma v100_valid_construct (buf : list T) :
  Z.of_nat (length buf) = QUEUE_SIZE → valid QUEUE_SIZE (construct buf).
Proof using Hsize.
  intros Hb. unfold valid, bounded, linked, flag_full. simpl.
  rewrite Z.mod_0_l by lia. repeat split; (lia || done).
Qed.

Lemma v100_valid_clear q : valid QUEUE_SIZE q → valid QUEUE_SIZE (clear q).
Proof using Hsize.
  intros ((Hb & _) & _). unfold valid, bounded, linked, flag_full. simpl.
  rewrite Z.mod_0_l by lia. repeat split; (lia || done).
Qed.

(** [push] without the machine arithmetic. *)
Lemma v100_push_eq e q :
  valid QUEUE_SIZE q →
  push QUEUE_SIZE e q
  = Done (if full QUEUE_SIZE q then BUFFER_OVERFLOW else BUFFER_OK,
          mkSQueue
            (<[Z.to_nat ((queue_head q + 1) mod QUEUE_SIZE) := e]> (buffer q))
            ((queue_head q + 1) mod QUEUE_SIZE)
            (if full QUEUE_SIZE q then (queue_tail q + 1) mod QUEUE_SIZE
             else queue_tail q)
            (if full QUEUE_SIZE q then num_elements_stored q
             else num_elements_stored q + 1)
            (full QUEUE_SIZE q)).
Proof using Hsize.
  intros ((Hb & Hh & Ht & Hc) & Hl & Hflag). unfold push.
  pose proof (ring_range QUEUE_SIZE v100_size_pos (queue_head q + 1)).
  destruct (full QUEUE_SIZE q) eqn:Hf; simpl.
  - rewrite !u32_small by lia. rewrite array_set_ok by lia. done.
  - unfold full, size in Hf. apply Z.leb_gt in Hf.
    rewrite !u32_small by lia. rewrite array_set_ok by lia. simpl.
    destruct (buffer_overflow q) eqn:Ho.
    + specialize (Hflag Ho). lia.
    + unfold set_buffer, set_queue_head, set_num_elements_stored. simpl.
      by rewrite Ho.
Qed.

Lemma v100_pop_eq q :
  valid QUEUE_SIZE q →
  pop QUEUE_SIZE q
  = if empty q then q
    else mkSQueue (buffer q) (queue_head q)
           ((queue_tail q + 1) mod QUEUE_SIZE)
           (num_elements_stored q - 1) false.
Proof using Hsize.
  intros ((Hb & Hh & Ht & Hc) & _). unfold pop.
  destruct (empty q) eqn:He; [done|]. apply Z.eqb_neq in He.
  unfold set_queue_tail, set_num_elements_stored, set_buffer_overflow. simpl.
  rewrite !u32_small by lia. done.
Qed.

Lemma v100_push_valid e q rc q' :
  valid QUEUE_SIZE q → push QUEUE_SIZE e q = Done (rc, q') →
  valid QUEUE_SIZE q'.
Proof using Hsize.
  intros Hq Hp. rewrite v100_push_eq in Hp by done.
  destruct Hq as ((Hb & Hh & Ht & Hc) & Hl & Hflag).
  pose proof (ring_range QUEUE_SIZE v100_size_pos (queue_head q + 1)).
  pose proof (ring_range QUEUE_SIZE v100_size_pos (queue_tail q + 1)).
  injection Hp as _ <-.
  unfold valid, bounded, linked, flag_full in *. simpl.
  rewrite length_insert.
  pose proof v100_size_pos as Hn.
  destruct (full QUEUE_SIZE q) eqn:Hf; unfold full, size in Hf;
    [apply Z.leb_le in Hf | apply Z.leb_gt in Hf];
    (split; [lia|]); (split; [rewrite Hl; ring_cases Hn; lia|]);
    intros; (done || lia).
Qed.

Lemma v100_pop_valid q : valid QUEUE_SIZE q → valid QUEUE_SIZE (pop QUEUE_SIZE q).
Proof using Hsize.
  intros Hq. rewrite v100_pop_eq by done.
  destruct (empty q) eqn:He; [done|]. apply Z.eqb_neq in He.
  destruct Hq as ((Hb & Hh & Ht & Hc) & Hl & Hflag).
  pose proof (ring_range QUEUE_SIZE v100_size_pos (queue_tail q + 1)).
  unfold valid, bounded, linked, flag_full in *. simpl.
  pose proof v100_size_pos as Hn.
  (split; [lia|]); (split; [rewrite Hl; ring_cases Hn; lia|]); done.
Qed.

Lemma v100_contents_length q :
  valid QUEUE_SIZE q →
  Z.of_nat (length (contents QUEUE_SIZE q)) = num_elements_stored q.
Proof using Hsize.
  intros ((Hb & Hh & Ht & Hc) & _).
  apply (ring_window_length QUEUE_SIZE v100_size_pos); [done| |done].
  apply ring_range, v100_size_pos.
Qed.

Lemma v100_contents_nil q :
  valid QUEUE_SIZE q → empty q = true → contents QUEUE_SIZE q = [].
Proof using Hsize.
  intros Hq He. apply Z.eqb_eq in He. apply length_zero_iff_nil.
  pose proof (v100_contents_length q Hq). lia.
Qed.

Lemma v100_push_contents e q rc q' :
  valid QUEUE_SIZE q → push QUEUE_SIZE e q = Done (rc, q') →
  contents QUEUE_SIZE q'
  = if full QUEUE_SIZE q then drop 1 (contents QUEUE_SIZE q) ++ [e]
    else contents QUEUE_SIZE q ++ [e].
Proof using Hsize.
  intros Hq Hp. rewrite v100_push_eq in Hp by done.
  destruct Hq as ((Hb & Hh & Ht & Hc) & Hl & Hflag).
  pose proof (ring_range QUEUE_SIZE v100_size_pos (queue_tail q + 1)) as Hs.
  pose proof v100_size_pos as Hn.
  injection Hp as _ <-. unfold contents, linked in *. simpl.
  destruct (full QUEUE_SIZE q) eqn:Hf; unfold full, size in Hf;
    [apply Z.leb_le in Hf | apply Z.leb_gt in Hf].
  - assert (Hfull : num_elements_stored q = QUEUE_SIZE) by lia.
    assert (Hht : queue_head q = queue_tail q).
    { rewrite Hl, Hfull. ring_cases Hn; lia. }
    rewrite Hht, Hfull.
    by apply (ring_window_overwrite QUEUE_SIZE v100_size_pos).
  - replace ((queue_head q + 1) mod QUEUE_SIZE)
      with (((queue_tail q + 1) mod QUEUE_SIZE + num_elements_stored q)
              mod QUEUE_SIZE)
      by (rewrite Hl; ring_cases Hn; lia).
    apply (ring_window_snoc QUEUE_SIZE v100_size_pos); (done || lia).
Qed.

Lemma v100_pop_contents q :
  valid QUEUE_SIZE q →
  contents QUEUE_SIZE (pop QUEUE_SIZE q) = drop 1 (contents QUEUE_SIZE q).
Proof using Hsize.
  intros Hq. rewrite v100_pop_eq by done.
  destruct (empty q) eqn:He.
  - by rewrite v100_contents_nil.
  - apply Z.eqb_neq in He.
    destruct Hq as ((Hb & Hh & Ht & Hc) & Hl & Hflag).
    pose proof (ring_range QUEUE_SIZE v100_size_pos (queue_tail q + 1)) as Hs.
    unfold contents. simpl.
    apply (ring_window_advance QUEUE_SIZE v100_size_pos); (done || lia).
Qed.

Lemma v100_front_value_eq q :
  valid QUEUE_SIZE q →
  front_value QUEUE_SIZE q = Done (head (contents QUEUE_SIZE q)).
Proof using Hsize.
  intros Hq. unfold front_value, front.
  destruct (empty q) eqn:He; simpl.
  - by rewrite v100_contents_nil.
  - apply Z.eqb_neq in He.
    destruct Hq as ((Hb & Hh & Ht & Hc) & Hl & Hflag).
    pose proof (ring_range QUEUE_SIZE v100_size_pos (queue_tail q + 1)) as Hs.
    rewrite u32_small by lia. rewrite array_ref_ok by lia. simpl.
    unfold contents.
    rewrite (ring_window_head QUEUE_SIZE v100_size_pos) by (done || lia).
    destruct (array_get_lookup (buffer q)
                ((queue_tail q + 1) mod QUEUE_SIZE)) as (x & Hx & ->);
      [lia|]. by rewrite Hx.
Qed.

Lemma v100_back_value_eq q :
  valid QUEUE_SIZE q →
  back_value q = Done (last (contents QUEUE_SIZE q)).
Proof using Hsize.
  intros Hq. unfold back_value, back.
  destruct (empty q) eqn:He; simpl.
  - by rewrite v100_contents_nil.
  - apply Z.eqb_neq in He.
    destruct Hq as ((Hb & Hh & Ht & Hc) & Hl & Hflag).
    pose proof (ring_range QUEUE_SIZE v100_size_pos (queue_tail q + 1)) as Hs.
    pose proof v100_size_pos as Hn.
    rewrite array_ref_ok by lia. simpl. unfold contents.
    rewrite (ring_window_last QUEUE_SIZE v100_size_pos) by (done || lia).
    replace (((queue_tail q + 1) mod QUEUE_SIZE + num_elements_stored q - 1)
               mod QUEUE_SIZE)
      with (queue_head q)
      by (unfold linked in Hl; rewrite Hl; ring_cases Hn; lia).
    destruct (array_get_lookup (buffer q) (queue_head q)) as (x & Hx & ->);
      [lia|]. by rewrite Hx.
Qed.

Lemma v100_step_refines o q :
  valid QUEUE_SIZE q →
  ∃ rc q', step QUEUE_SIZE o q = Done (rc, q')
           ∧ valid QUEUE_SIZE q'
           ∧ RingQueue.step QUEUE_SIZE o (contents QUEUE_SIZE q)
             = (rc_value <$> rc, contents QUEUE_SIZE q').
Proof using Hsize.
  intros Hq. pose proof (v100_contents_length q Hq) as Hlen.
  destruct o as [e| |]; simpl.
  - pose proof (v100_push_eq e q Hq) as Hp.
    pose proof (v100_push_contents e q _ _ Hq Hp) as Hc.
    pose proof (v100_push_valid e q _ _ Hq Hp) as Hv.
    rewrite Hp. simpl. eexists _, _. split; [done|]. split; [done|].
    rewrite Hc. unfold RingQueue.push, full, size. rewrite Hlen.
    by destruct (QUEUE_SIZE <=? num_elements_stored q).
  - eexists _, _. split; [done|]. split; [by apply v100_pop_valid|].
    by rewrite v100_pop_contents.
  - eexists _, _. split; [done|]. split; [by apply v100_valid_clear|]. done.
Qed.

Lemma v100_observe_refines rc q :
  valid QUEUE_SIZE q →
  observe QUEUE_SIZE rc q
  = Done (RingQueue.observe (rc_value <$> rc) (contents QUEUE_SIZE q)).
Proof using Hsize.
  intros Hq. unfold observe, RingQueue.observe.
  rewrite v100_front_value_eq, v100_back_value_eq by done. simpl.
  by rewrite v100_contents_length.
Qed.

Lemma v100_trace_refines ops q :
  valid QUEUE_SIZE q →
  trace QUEUE_SIZE ops q
  = Done (RingQueue.trace QUEUE_SIZE ops (contents QUEUE_SIZE q)).
Proof using Hsize.
  revert q. induction ops as [|o ops IH]; intros q Hq; simpl; [done|].
  destruct (v100_step_refines o q Hq) as (rc & q' & -> & Hq' & ->). simpl.
  rewrite v100_observe_refines by done. simpl.
  by rewrite IH by done.
Qed.

Lemma v100_observations_refine ops q :
  valid QUEUE_SIZE q →
  observations QUEUE_SIZE ops q
  = Done (RingQueue.observations QUEUE_SIZE ops (contents QUEUE_SIZE q)).
Proof using Hsize.
  intros Hq. unfold observations, RingQueue.observations.
  rewrite v100_observe_refines by done. simpl.
  by rewrite v100_trace_refines by done.
Qed.
End V100_Refinement.

(** ** Version 1.1.0: the overflow flag along a run *)

Section V110_Flag.
Import V1_1_0.
Context {T : Type}.
Variable QUEUE_SIZE : Z.
Hypothesis Hsize : 1 ≤ QUEUE_SIZE < 2 ^ 32.
Implicit Types (q : SQueue T) (e : T) (ops : list (op T)).

Lemma step_flag_full o q r q' :
  bounded QUEUE_SIZE q → flag_full QUEUE_SIZE q →
  step QUEUE_SIZE o q = Done (r, q') → flag_full QUEUE_SIZE q'.
Proof using Hsize.
  intros Hq Hflag Hstep. destruct o as [e| |]; simpl in Hstep.
  - rewrite (push_eq QUEUE_SIZE Hsize) in Hstep by done. simpl in Hstep.
    injection Hstep as _ <-. unfold flag_full. simpl.
    destruct Hq as (Hb & Hh & Ht & Hc).
    destruct (full QUEUE_SIZE q) eqn:Hf; [|done].
    apply full_true in Hf. lia.
  - injection Hstep as _ <-. rewrite (pop_eq QUEUE_SIZE Hsize) by done.
    by destruct (empty q).
  - injection Hstep as _ <-. done.
Qed.

Lemma run_flag_full ops q q' :
  valid QUEUE_SIZE q → flag_full QUEUE_SIZE q →
  run QUEUE_SIZE ops q = Done q' → flag_full QUEUE_SIZE q'.
Proof using Hsize.
  revert q. induction ops as [|o ops IH]; intros q Hq Hflag Hrun;
    simpl in Hrun.
  - by injection Hrun as <-.
  - destruct (step_valid QUEUE_SIZE Hsize o q Hq) as (r & q1 & Hstep & Hq1).
    rewrite Hstep in Hrun. simpl in Hrun.
    apply (IH q1); [done| |done].
    eapply step_flag_full; [apply Hq|done|done].
Qed.

Lemma reachable_flag_full q :
  reachable QUEUE_SIZE q → flag_full QUEUE_SIZE q.
Proof using Hsize.
  intros (buf & ops & Hb & Hrun).
  eapply run_flag_full; [by apply valid_construct| |done]. done.
Qed.

(** The flag is up exactly when the run ended with a push into a full
    queue. *)
Lemma run_overflow_iff (buf : list T) ops q :
  Z.of_nat (length buf) = QUEUE_SIZE →
  run QUEUE_SIZE ops (construct buf) = Done q →
  queue_overflow q = true
  ↔ ∃ ops' e q0, ops = ops' ++ [Push e]
                 ∧ run QUEUE_SIZE ops' (construct buf) = Done q0
                 ∧ full QUEUE_SIZE q0 = true.
Proof using Hsize.
  intros Hb Hrun.
  destruct ops as [|o ops _] using rev_ind.
  - simpl in Hrun. injection Hrun as <-. simpl. split; [done|].
    intros (ops' & e & _ & Hnil & _). by destruct ops'.
  - rewrite run_snoc in Hrun.
    destruct (run_valid QUEUE_SIZE Hsize ops (construct buf))
      as (q1 & Hrun1 & Hq1); [by apply valid_construct|].
    assert (Hflag1 : flag_full QUEUE_SIZE q1).
    { apply reachable_flag_full. by exists buf, ops. }
    rewrite Hrun1 in Hrun. simpl in Hrun.
    destruct o as [e| |]; simpl in Hrun.
    + rewrite (push_eq QUEUE_SIZE Hsize) in Hrun by apply Hq1.
      simpl in Hrun. injection Hrun as <-. simpl. split.
      * intros Hf. by exists ops, e, q1.
      * intros (ops' & e' & q0 & Heq & Hrun0 & Hf).
        apply app_inj_tail in Heq as [<- _]. congruence.
    + injection Hrun as <-. rewrite (pop_eq QUEUE_SIZE Hsize) by apply Hq1.
      split.
      * destruct (empty q1) eqn:He; [|done]. intros Ho.
        apply empty_true in He. specialize (Hflag1 Ho). lia.
      * intros (ops' & e' & q0 & Heq & _).
        apply app_inj_tail in Heq as [_ Heq]. done.
    + injection Hrun as <-. simpl. split; [done|].
      intros (ops' & e' & q0 & Heq & _).
      apply app_inj_tail in Heq as [_ Heq]. done.
Qed.
End V110_Flag.

(** * Scenarios *)

Section Scenarios.
Import V1_1_0.

(** Capacity 5: after pushing 0..4 the queue is full; pushing 5 reports the
    eviction, [front] shows 1 and [size] is still 5. *)
Example scenario_capacity_five :
  ∃ q q', push_all 5 [0; 1; 2; 3; 4] (construct [9; 9; 9; 9; 9]) = Done q
          ∧ full 5 q = true
          ∧ queue_overflow q = false
          ∧ push 5 5 q = Done (OVERFLOW, q')
          ∧ front_value q' = Done (Some 1)
          ∧ back_value 5 q' = Done (Some 5)
          ∧ size q' = 5
          ∧ contains 5 Z.eqb 5 q' = Some (Done true)
          ∧ contains 5 Z.eqb 0 q' = Some (Done false).
Proof.
  exists (mkSQueue [0; 1; 2; 3; 4] 0 0 5 false),
         (mkSQueue [5; 1; 2; 3; 4] 1 1 5 true).
  repeat split; reflexivity.
Qed.

(** Capacity 1: a push followed by a pop leaves the queue empty. *)
Example scenario_capacity_one :
  ∃ q, push 1 7 (construct [0]) = Done (OK, q)
       ∧ empty q = false
       ∧ empty (pop 1 q) = true.
Proof. exists (mkSQueue [7] 0 0 1 false). repeat split; reflexivity. Qed.

(** Version 1.0.0 keeps the same elements one slot further. *)
Example scenario_v100_layout :
  V1_0_0.push 3 10 (V1_0_0.construct [0; 0; 0])
  = Done (V1_0_0.BUFFER_OK, V1_0_0.mkSQueue [0; 10; 0] 1 0 1 false)
  ∧ V1_0_0.front_value 3 (V1_0_0.mkSQueue [0; 10; 0] 1 0 1 false)
    = Done (Some 10)
  ∧ push 3 10 (construct [0; 0; 0])
    = Done (OK, mkSQueue [10; 0; 0] 1 0 1 false)
  ∧ front_value (mkSQueue [10; 0; 0] 1 0 1 false) = Done (Some 10).
Proof. repeat split; reflexivity. Qed.
End Scenarios.

(** * The properties of the specification, version 1.1.0 *)

(** Decides a closed conjunction of comparisons of literals. *)
Ltac closed_facts :=
  repeat split; vm_compute; first [reflexivity | discriminate | congruence].

Section V110_Specification.
Import V1_1_0.

(** C1.  Pushing the elements [xs] (no more than [QUEUE_SIZE] of them) into an
    empty queue succeeds and leaves [size] equal to their number; looking at
    [front] and popping, as many times, then shows exactly [xs], in the order
    pushed, and leaves the queue empty. *)
Theorem fifo_round_trip (T : Type) (QUEUE_SIZE : Z) (q0 : SQueue T) (xs : list T) :
  1 ≤ QUEUE_SIZE < 2 ^ 32 →
  valid QUEUE_SIZE q0 →
  empty q0 = true →
  Z.of_nat (length xs) ≤ QUEUE_SIZE →
  ∃ q, push_all QUEUE_SIZE xs q0 = Done q
       ∧ size q = Z.of_nat (length xs)
       ∧ ∃ q', drain QUEUE_SIZE (length xs) q = Done (Some <$> xs, q')
               ∧ empty q' = true.
Proof.
  intros Hsize Hq0 He Hlen.
  pose proof (proj2 (contents_nil QUEUE_SIZE Hsize q0 (proj1 Hq0)) He) as Hnil.
  apply empty_true in He.
  destruct (push_all_contents QUEUE_SIZE Hsize xs q0 Hq0)
    as (q & Hpush & Hq & Hc); [lia|].
  rewrite Hnil in Hc. simpl in Hc.
  pose proof (contents_length QUEUE_SIZE Hsize q (proj1 Hq)) as Hsz.
  rewrite Hc in Hsz.
  exists q. split; [done|]. split; [done|].
  destruct (drain_contents QUEUE_SIZE Hsize (length xs) q Hq)
    as (q' & Hdrain & Hq' & Hc'); [lia|].
  rewrite Hc in Hdrain, Hc'. rewrite take_ge in Hdrain by lia.
  rewrite drop_ge in Hc' by lia.
  exists q'. split; [done|].
  by apply (contents_nil QUEUE_SIZE Hsize q' (proj1 Hq')).
Qed.

Lemma fifo_round_trip_witness :
  1 ≤ 3 < 2 ^ 32
  ∧ valid 3 Examples.fresh3
  ∧ empty Examples.fresh3 = true
  ∧ Z.of_nat (length [10; 20; 30]) ≤ 3
  ∧ ∃ q, push_all 3 [10; 20; 30] Examples.fresh3 = Done q
         ∧ size q = Z.of_nat (length [10; 20; 30])
         ∧ ∃ q', drain 3 (length [10; 20; 30]) q
                 = Done (Some <$> [10; 20; 30], q')
                 ∧ empty q' = true.
Proof.
  assert (H1 : 1 ≤ 3 < 2 ^ 32) by lia.
  assert (H2 : valid 3 Examples.fresh3) by closed_facts.
  assert (H3 : empty Examples.fresh3 = true) by reflexivity.
  assert (H4 : Z.of_nat (length [10; 20; 30]) ≤ 3) by (simpl; lia).
  repeat (split; [assumption|]).
  exact (fifo_round_trip Z 3 Examples.fresh3 [10; 20; 30] H1 H2 H3 H4).
Defined.

(** C4.  On an empty queue [pop] returns the state it was given: head, tail,
    count, flag and storage keep their values, and [size] stays 0.  [pop] has
    no result through which an error could be signalled. *)
Theorem pop_empty_noop (T : Type) (QUEUE_SIZE : Z) (q : SQueue T) :
  empty q = true →
  pop QUEUE_SIZE q = q ∧ size (pop QUEUE_SIZE q) = 0.
Proof.
  intros He. unfold pop. rewrite He. split; [done|].
  by apply Z.eqb_eq in He.
Qed.

Lemma pop_empty_noop_witness :
  empty Examples.drained3 = true
  ∧ pop 3 Examples.drained3 = Examples.drained3
  ∧ size (pop 3 Examples.drained3) = 0.
Proof.
  assert (H1 : empty Examples.drained3 = true) by reflexivity.
  split; [assumption|].
  exact (pop_empty_noop Z 3 Examples.drained3 H1).
Defined.

(** C7.  [clear] zeroes head, tail and count and lowers the flag; the storage
    is the one it was given; [empty] holds afterwards, whatever the state
    was. *)
Theorem clear_resets (T : Type) (q : SQueue T) :
  clear q = mkSQueue (buffer q) 0 0 0 false
  ∧ buffer (clear q) = buffer q
  ∧ empty (clear q) = true.
Proof. done. Qed.

(** C2, as the code has it.  On every valid state [push] stores the element
    (it becomes [back]) and returns [OVERFLOW] exactly when the queue was full,
    [OK] otherwise.  On a full queue the slot of the oldest element is
    overwritten, [size] stays [QUEUE_SIZE] and the new [front] is the second
    element of the old contents followed by the pushed element: the
    second-oldest stored element when [QUEUE_SIZE >= 2], the pushed element
    itself when [QUEUE_SIZE = 1].  On a queue that is not full the count grows
    by one. *)
Theorem push_evicts_oldest (T : Type) (QUEUE_SIZE : Z) (q : SQueue T) (e : T) :
  1 ≤ QUEUE_SIZE < 2 ^ 32 →
  valid QUEUE_SIZE q →
  ∃ q', push QUEUE_SIZE e q
        = Done (if full QUEUE_SIZE q then OVERFLOW else OK, q')
        ∧ back_value QUEUE_SIZE q' = Done (Some e)
        ∧ last (contents q') = Some e
        ∧ (full QUEUE_SIZE q = true →
             size q = QUEUE_SIZE
             ∧ size q' = QUEUE_SIZE
             ∧ buffer q' = <[Z.to_nat (queue_tail q) := e]> (buffer q)
             ∧ contents q' = drop 1 (contents q) ++ [e]
             ∧ front_value q' = Done ((contents q ++ [e]) !! 1%nat)
             ∧ (2 ≤ QUEUE_SIZE →
                  ∃ y, contents q !! 1%nat = Some y
                       ∧ front_value q' = Done (Some y))
             ∧ (QUEUE_SIZE = 1 → front_value q' = Done (Some e)))
        ∧ (full QUEUE_SIZE q = false →
             size q' = size q + 1
             ∧ contents q' = contents q ++ [e]).
Proof.
  intros Hsize Hq.
  pose proof (push_eq QUEUE_SIZE Hsize e q (proj1 Hq)) as Hp.
  pose proof (push_contents QUEUE_SIZE Hsize e q _ _ Hq Hp) as Hc.
  pose proof (push_valid QUEUE_SIZE Hsize e q _ _ Hq Hp) as Hv.
  pose proof (contents_length QUEUE_SIZE Hsize q (proj1 Hq)) as Hlen.
  eexists. split; [exact Hp|].
  assert (Hlast : last (contents (mkSQueue
                    (<[Z.to_nat (queue_head q) := e]> (buffer q))
                    ((queue_head q + 1) mod QUEUE_SIZE)
                    (if full QUEUE_SIZE q
                     then (queue_tail q + 1) mod QUEUE_SIZE
                     else queue_tail q)
                    (if full QUEUE_SIZE q then num_elements_stored q
                     else num_elements_stored q + 1)
                    (full QUEUE_SIZE q))) = Some e).
  { rewrite Hc. destruct (full QUEUE_SIZE q); apply last_snoc. }
  split; [by rewrite (back_value_eq QUEUE_SIZE Hsize), Hlast|].
  split; [done|].
  rewrite (front_value_eq QUEUE_SIZE Hsize) by apply Hv.
  rewrite Hc. destruct Hq as [(Hb & Hh & Ht & Hcnt) Hl].
  destruct (full QUEUE_SIZE q) eqn:Hf; split; intros Hcase;
    try discriminate Hcase; clear Hcase.
  - apply full_true in Hf. unfold size. simpl.
    assert (Hfull : num_elements_stored q = QUEUE_SIZE) by lia.
    assert (Hht : queue_head q = queue_tail q).
    { unfold linked in Hl. rewrite Hl, Hfull.
      pose proof (queue_size_pos QUEUE_SIZE Hsize) as Hn.
      ring_cases Hn; lia. }
    rewrite Hht.
    repeat (split; [done|]).
    destruct (contents q) as [|a [|b l]] eqn:Hcont; simpl in Hlen; [lia| |].
    + split; [done|]. split; [lia|done].
    + split; [done|]. split; [|lia]. intros _. by exists b.
  - apply full_false in Hf. unfold size. simpl. done.
Qed.

Lemma push_evicts_oldest_witness :
  1 ≤ 3 < 2 ^ 32
  ∧ valid 3 Examples.wrapped3
  ∧ ∃ q', push 3 40 Examples.wrapped3
          = Done (if full 3 Examples.wrapped3 then OVERFLOW else OK, q')
          ∧ back_value 3 q' = Done (Some 40)
          ∧ last (contents q') = Some 40
          ∧ (full 3 Examples.wrapped3 = true →
               size Examples.wrapped3 = 3
               ∧ size q' = 3
               ∧ buffer q'
                 = <[Z.to_nat (queue_tail Examples.wrapped3) := 40]>
                     (buffer Examples.wrapped3)
               ∧ contents q' = drop 1 (contents Examples.wrapped3) ++ [40]
               ∧ front_value q'
                 = Done ((contents Examples.wrapped3 ++ [40]) !! 1%nat)
               ∧ (2 ≤ 3 →
                    ∃ y, contents Examples.wrapped3 !! 1%nat = Some y
                         ∧ front_value q' = Done (Some y))
               ∧ (3 = 1 → front_value q' = Done (Some 40)))
          ∧ (full 3 Examples.wrapped3 = false →
               size q' = size Examples.wrapped3 + 1
               ∧ contents q' = contents Examples.wrapped3 ++ [40]).
Proof.
  assert (H1 : 1 ≤ 3 < 2 ^ 32) by lia.
  assert (H2 : valid 3 Examples.wrapped3) by closed_facts.
  repeat (split; [assumption|]).
  exact (push_evicts_oldest Z 3 Examples.wrapped3 40 H1 H2).
Defined.

(** C2 as stated fails for capacity 1: the full queue holding only 7 has no
    second-oldest element, and after [push 9] its [front] is 9, which was not
    stored before. *)
Lemma push_full_capacity_one_front :
  run 1 [Push 7] (construct [0]) = Done Examples.single7
  ∧ valid 1 Examples.single7
  ∧ full 1 Examples.single7 = true
  ∧ contents Examples.single7 = [7]
  ∧ push 1 9 Examples.single7 = Done (OVERFLOW, Examples.single9)
  ∧ size Examples.single9 = 1
  ∧ front_value Examples.single9 = Done (Some 9)
  ∧ front_value Examples.single9 ≠ Done (contents Examples.single7 !! 1%nat)
  ∧ 9 ∉ contents Examples.single7.
Proof.
  split; [reflexivity|]. split; [closed_facts|].
  repeat (split; [reflexivity|]).
  split; [discriminate|].
  intros Hin. apply list_elem_of_singleton in Hin. discriminate.
Qed.

(** C3.  [front] and [back] return [nullptr] exactly when the queue is
    empty.  On a non-empty queue [front] is the address of [buffer[tail]] and
    [back] the address of [buffer[(head - 1) mod QUEUE_SIZE]], both inside the
    array; when head, tail and count are linked these are the oldest and the
    newest stored element, and after any run of operations from a fresh queue
    [front] shows the oldest element the bounded list still holds and [back]
    the element of the most recent push. *)
Theorem front_back_spec (T : Type) (QUEUE_SIZE : Z) (q : SQueue T) :
  1 ≤ QUEUE_SIZE < 2 ^ 32 →
  bounded QUEUE_SIZE q →
  (front q = Done None ↔ empty q = true)
  ∧ (back QUEUE_SIZE q = Done None ↔ empty q = true)
  ∧ (empty q = false →
       front q = Done (Some (queue_tail q))
       ∧ back QUEUE_SIZE q = Done (Some ((queue_head q - 1) mod QUEUE_SIZE))
       ∧ ∃ x y,
           buffer q !! Z.to_nat (queue_tail q) = Some x
           ∧ front_value q = Done (Some x)
           ∧ buffer q !! Z.to_nat ((queue_head q - 1) mod QUEUE_SIZE) = Some y
           ∧ back_value QUEUE_SIZE q = Done (Some y))
  ∧ (linked QUEUE_SIZE q →
       front_value q = Done (head (contents q))
       ∧ back_value QUEUE_SIZE q = Done (last (contents q)))
  ∧ (∀ (buf : list T) (ops : list (op T)),
       Z.of_nat (length buf) = QUEUE_SIZE →
       run QUEUE_SIZE ops (construct buf) = Done q →
       empty q = false →
       front_value q = Done (head (RingQueue.run QUEUE_SIZE ops []))
       ∧ back_value QUEUE_SIZE q = Done (last_pushed ops)).
Proof.
  intros Hsize Hq.
  pose proof (front_eq QUEUE_SIZE Hsize q Hq) as Hfront.
  pose proof (back_eq QUEUE_SIZE Hsize q Hq) as Hback.
  split; [|split; [|split; [|split]]].
  - rewrite Hfront. destruct (empty q); split; (done || discriminate).
  - rewrite Hback. destruct (empty q); split; (done || discriminate).
  - intros He. unfold front_value, back_value.
    rewrite Hfront, Hback, He. simpl.
    split; [done|]. split; [done|].
    apply empty_false in He. destruct Hq as (Hb & Hh & Ht & Hc).
    pose proof (ring_range QUEUE_SIZE (queue_size_pos QUEUE_SIZE Hsize)
                  (queue_head q - 1)).
    destruct (array_get_lookup (buffer q) (queue_tail q))
      as (x & Hx & ->); [lia|].
    destruct (array_get_lookup (buffer q)
                ((queue_head q - 1) mod QUEUE_SIZE)) as (y & Hy & ->); [lia|].
    by exists x, y.
  - intros Hl. split.
    + by apply (front_value_eq QUEUE_SIZE Hsize).
    + by apply (back_value_eq QUEUE_SIZE Hsize).
  - intros buf ops Hb Hrun He.
    destruct (run_refines QUEUE_SIZE Hsize ops (construct buf))
      as (q' & Hrun' & Hq' & Hc); [by apply valid_construct|].
    assert (q' = q) as -> by congruence.
    rewrite (front_value_eq QUEUE_SIZE Hsize) by done.
    rewrite (back_value_eq QUEUE_SIZE Hsize) by done.
    rewrite Hc. simpl. split; [done|]. f_equal. apply model_last_pushed.
    change (RingQueue.run QUEUE_SIZE ops (contents (construct buf)) ≠ []).
    rewrite <- Hc. intros Hnil.
    apply (contents_nil QUEUE_SIZE Hsize q Hq) in Hnil. congruence.
Qed.

Lemma front_back_spec_witness :
  1 ≤ 3 < 2 ^ 32
  ∧ bounded 3 Examples.after4
  ∧ (front Examples.after4 = Done None ↔ empty Examples.after4 = true)
  ∧ (back 3 Examples.after4 = Done None ↔ empty Examples.after4 = true)
  ∧ (empty Examples.after4 = false →
       front Examples.after4 = Done (Some (queue_tail Examples.after4))
       ∧ back 3 Examples.after4
         = Done (Some ((queue_head Examples.after4 - 1) mod 3))
       ∧ ∃ x y,
           buffer Examples.after4 !! Z.to_nat (queue_tail Examples.after4)
           = Some x
           ∧ front_value Examples.after4 = Done (Some x)
           ∧ buffer Examples.after4
               !! Z.to_nat ((queue_head Examples.after4 - 1) mod 3)
             = Some y
           ∧ back_value 3 Examples.after4 = Done (Some y))
  ∧ (linked 3 Examples.after4 →
       front_value Examples.after4 = Done (head (contents Examples.after4))
       ∧ back_value 3 Examples.after4
         = Done (last (contents Examples.after4)))
  ∧ (∀ (buf : list Z) (ops : list (op Z)),
       Z.of_nat (length buf) = 3 →
       run 3 ops (construct buf) = Done Examples.after4 →
       empty Examples.after4 = false →
       front_value Examples.after4 = Done (head (RingQueue.run 3 ops []))
       ∧ back_value 3 Examples.after4 = Done (last_pushed ops)).
Proof.
  assert (H1 : 1 ≤ 3 < 2 ^ 32) by lia.
  assert (H2 : bounded 3 Examples.after4) by closed_facts.
  repeat (split; [assumption|]).
  exact (front_back_spec Z 3 Examples.after4 H1 H2).
Defined.

(** C5.  In a state reached from a fresh queue the flag is up exactly when
    the last operation was a push into a full queue.  From there a push
    leaves the flag equal to whether the queue was full (an evicting push
    raises it, a push into a queue that is not full lowers it), every pop of
    a non-empty queue lowers it, and so does [clear]. *)
Theorem overflow_flag_transient (T : Type) (QUEUE_SIZE : Z) (buf : list T)
    (ops : list (op T)) (q : SQueue T) :
  1 ≤ QUEUE_SIZE < 2 ^ 32 →
  Z.of_nat (length buf) = QUEUE_SIZE →
  run QUEUE_SIZE ops (construct buf) = Done q →
  (queue_overflow q = true
   ↔ ∃ ops' e q0, ops = ops' ++ [Push e]
                  ∧ run QUEUE_SIZE ops' (construct buf) = Done q0
                  ∧ full QUEUE_SIZE q0 = true)
  ∧ (∀ e, ∃ rc q', push QUEUE_SIZE e q = Done (rc, q')
                   ∧ queue_overflow q' = full QUEUE_SIZE q
                   ∧ (rc = OVERFLOW ↔ full QUEUE_SIZE q = true))
  ∧ (empty q = false → queue_overflow (pop QUEUE_SIZE q) = false)
  ∧ queue_overflow (clear q) = false.
Proof.
  intros Hsize Hb Hrun.
  assert (Hq : valid QUEUE_SIZE q).
  { apply (reachable_valid QUEUE_SIZE Hsize). by exists buf, ops. }
  split; [by apply (run_overflow_iff QUEUE_SIZE Hsize buf)|].
  split; [|split; [|done]].
  - intros e. rewrite (push_eq QUEUE_SIZE Hsize) by apply Hq.
    eexists _, _. split; [done|]. simpl. split; [done|].
    destruct (full QUEUE_SIZE q); split; (done || discriminate).
  - intros He. unfold pop. by rewrite He.
Qed.

Lemma overflow_flag_transient_witness :
  1 ≤ 3 < 2 ^ 32
  ∧ Z.of_nat (length [0; 0; 0]) = 3
  ∧ run 3 Examples.ops4 (construct [0; 0; 0]) = Done Examples.after4
  ∧ (queue_overflow Examples.after4 = true
     ↔ ∃ ops' e q0, Examples.ops4 = ops' ++ [Push e]
                    ∧ run 3 ops' (construct [0; 0; 0]) = Done q0
                    ∧ full 3 q0 = true)
  ∧ (∀ e, ∃ rc q', push 3 e Examples.after4 = Done (rc, q')
                   ∧ queue_overflow q' = full 3 Examples.after4
                   ∧ (rc = OVERFLOW ↔ full 3 Examples.after4 = true))
  ∧ (empty Examples.after4 = false →
     queue_overflow (pop 3 Examples.after4) = false)
  ∧ queue_overflow (clear Examples.after4) = false.
Proof.
  assert (H1 : 1 ≤ 3 < 2 ^ 32) by lia.
  assert (H2 : Z.of_nat (length [0; 0; 0]) = 3) by reflexivity.
  assert (H3 : run 3 Examples.ops4 (construct [0; 0; 0])
               = Done Examples.after4) by reflexivity.
  repeat (split; [assumption|]).
  exact (overflow_flag_transient Z 3 [0; 0; 0] Examples.ops4 Examples.after4
           H1 H2 H3).
Defined.

(** C6.  On every state within bounds the scan of [contains] ends and
    reads inside the array; it answers [true] exactly when [x == y] holds for
    the element [y] of one of the slots [tail, tail + 1, ..., tail + count - 1]
    (mod [QUEUE_SIZE]), that is, of one of the logically valid elements.  A
    match at slot [k] ends the scan within [k + 1] iterations, and on an empty
    queue the answer is [false]. *)
Theorem contains_scans_window (T : Type) (QUEUE_SIZE : Z)
    (eqb : T → T → bool) (q : SQueue T) (x : T) :
  1 ≤ QUEUE_SIZE < 2 ^ 32 →
  bounded QUEUE_SIZE q →
  ∃ b, contains QUEUE_SIZE eqb x q = Some (Done b)
       ∧ (b = true
          ↔ ∃ k, 0 ≤ k < num_elements_stored q
                 ∧ match_at QUEUE_SIZE eqb q x k)
       ∧ (b = true ↔ ∃ y, y ∈ contents q ∧ eqb x y = true)
       ∧ (∀ k, 0 ≤ k < num_elements_stored q →
               match_at QUEUE_SIZE eqb q x k →
               contains_loop QUEUE_SIZE eqb (S (Z.to_nat k)) x q 0
               = Some (Done true))
       ∧ (empty q = true → b = false).
Proof.
  intros Hsize Hq. pose proof Hq as (Hb & Hh & Ht & Hc).
  destruct (contains_loop_spec QUEUE_SIZE Hsize eqb q x
              (Z.to_nat (num_elements_stored q)) 0 Hq)
    as (b & Hrun & Hiff); [lia | lia |].
  exists b. split; [exact Hrun|]. split; [exact Hiff|].
  split; [by rewrite Hiff; apply match_at_contents|].
  split.
  - intros k Hk Hm.
    apply (contains_loop_stops QUEUE_SIZE Hsize eqb q x _ 0 k);
      (done || lia).
  - intros He. apply empty_true in He.
    destruct b; [|done].
    destruct (proj1 Hiff eq_refl) as (k & Hk & _). lia.
Qed.

Lemma contains_scans_window_witness :
  1 ≤ 3 < 2 ^ 32
  ∧ bounded 3 Examples.wrapped3
  ∧ ∃ b, contains 3 Z.eqb 10 Examples.wrapped3 = Some (Done b)
         ∧ (b = true
            ↔ ∃ k, 0 ≤ k < num_elements_stored Examples.wrapped3
                   ∧ match_at 3 Z.eqb Examples.wrapped3 10 k)
         ∧ (b = true
            ↔ ∃ y, y ∈ contents Examples.wrapped3 ∧ Z.eqb 10 y = true)
         ∧ (∀ k, 0 ≤ k < num_elements_stored Examples.wrapped3 →
                 match_at 3 Z.eqb Examples.wrapped3 10 k →
                 contains_loop 3 Z.eqb (S (Z.to_nat k)) 10 Examples.wrapped3 0
                 = Some (Done true))
         ∧ (empty Examples.wrapped3 = true → b = false).
Proof.
  assert (H1 : 1 ≤ 3 < 2 ^ 32) by lia.
  assert (H2 : bounded 3 Examples.wrapped3) by closed_facts.
  repeat (split; [assumption|]).
  exact (contains_scans_window Z 3 Z.eqb Examples.wrapped3 10 H1 H2).
Defined.

(** C8.  A fresh queue has its indexes in range, and from a state with
    [0 <= head < QUEUE_SIZE], [0 <= tail < QUEUE_SIZE] and
    [0 <= count <= QUEUE_SIZE] every operation completes without leaving the
    array and leaves the indexes in range: [push], [pop] and [clear] yield
    such a state, [front] and [back] yield [nullptr] or the address of a slot
    that can be read, [contains] ends with an answer, and [size], [empty] and
    [full] only read the count. *)
Theorem indexes_stay_in_range (T : Type) (QUEUE_SIZE : Z) (q : SQueue T) :
  1 ≤ QUEUE_SIZE < 2 ^ 32 →
  bounded QUEUE_SIZE q →
  (∀ buf : list T,
     Z.of_nat (length buf) = QUEUE_SIZE → bounded QUEUE_SIZE (construct buf))
  ∧ (∀ e, ∃ rc q', push QUEUE_SIZE e q = Done (rc, q')
                   ∧ bounded QUEUE_SIZE q')
  ∧ bounded QUEUE_SIZE (pop QUEUE_SIZE q)
  ∧ bounded QUEUE_SIZE (clear q)
  ∧ (∃ p v, front q = Done p ∧ pointee q p = Done v
            ∧ ∀ i, p = Some i → 0 ≤ i < QUEUE_SIZE)
  ∧ (∃ p v, back QUEUE_SIZE q = Done p ∧ pointee q p = Done v
            ∧ ∀ i, p = Some i → 0 ≤ i < QUEUE_SIZE)
  ∧ (∀ (eqb : T → T → bool) x,
       ∃ b, contains QUEUE_SIZE eqb x q = Some (Done b))
  ∧ 0 ≤ size q ≤ QUEUE_SIZE
  ∧ (empty q = true ↔ size q = 0)
  ∧ (full QUEUE_SIZE q = true ↔ size q = QUEUE_SIZE).
Proof.
  intros Hsize Hq. pose proof Hq as (Hb & Hh & Ht & Hc).
  pose proof (queue_size_pos QUEUE_SIZE Hsize) as Hn.
  split; [intros buf; apply (bounded_construct QUEUE_SIZE Hsize)|].
  split.
  { intros e. pose proof (push_eq QUEUE_SIZE Hsize e q Hq) as Hp.
    eexists _, _. split; [exact Hp|].
    by apply (push_bounded QUEUE_SIZE Hsize e q _ _ Hq Hp). }
  split; [by apply pop_bounded|]. split; [by apply clear_bounded|].
  split.
  { rewrite (front_eq QUEUE_SIZE Hsize) by done.
    destruct (empty q); simpl.
    - exists None, None. by repeat split.
    - destruct (array_get_lookup (buffer q) (queue_tail q))
        as (x & _ & Hx); [lia|].
      exists (Some (queue_tail q)), (Some x). simpl. rewrite Hx.
      split; [done|]. split; [done|]. intros i [= <-]. lia. }
  split.
  { rewrite (back_eq QUEUE_SIZE Hsize) by done.
    pose proof (ring_range QUEUE_SIZE Hn (queue_head q - 1)) as Hr.
    destruct (empty q); simpl.
    - exists None, None. by repeat split.
    - destruct (array_get_lookup (buffer q)
                  ((queue_head q - 1) mod QUEUE_SIZE)) as (x & _ & Hx); [lia|].
      exists (Some ((queue_head q - 1) mod QUEUE_SIZE)), (Some x).
      simpl. rewrite Hx.
      split; [done|]. split; [done|]. intros i [= <-]. lia. }
  split.
  { intros eqb x.
    destruct (contains_loop_spec QUEUE_SIZE Hsize eqb q x
                (Z.to_nat (num_elements_stored q)) 0 Hq)
      as (b & Hrun & _); [lia | lia |].
    by exists b. }
  split; [done|]. split; [apply empty_true|].
  rewrite full_true. unfold size. lia.
Qed.

Lemma indexes_stay_in_range_witness :
  1 ≤ 3 < 2 ^ 32
  ∧ bounded 3 Examples.after4
  ∧ (∀ buf : list Z, Z.of_nat (length buf) = 3 → bounded 3 (construct buf))
  ∧ (∀ e, ∃ rc q', push 3 e Examples.after4 = Done (rc, q') ∧ bounded 3 q')
  ∧ bounded 3 (pop 3 Examples.after4)
  ∧ bounded 3 (clear Examples.after4)
  ∧ (∃ p v, front Examples.after4 = Done p
            ∧ pointee Examples.after4 p = Done v
            ∧ ∀ i, p = Some i → 0 ≤ i < 3)
  ∧ (∃ p v, back 3 Examples.after4 = Done p
            ∧ pointee Examples.after4 p = Done v
            ∧ ∀ i, p = Some i → 0 ≤ i < 3)
  ∧ (∀ (eqb : Z → Z → bool) x,
       ∃ b, contains 3 eqb x Examples.after4 = Some (Done b))
  ∧ 0 ≤ size Examples.after4 ≤ 3
  ∧ (empty Examples.after4 = true ↔ size Examples.after4 = 0)
  ∧ (full 3 Examples.after4 = true ↔ size Examples.after4 = 3).
Proof.
  assert (H1 : 1 ≤ 3 < 2 ^ 32) by lia.
  assert (H2 : bounded 3 Examples.after4) by closed_facts.
  repeat (split; [assumption|]).
  exact (indexes_stay_in_range Z 3 Examples.after4 H1 H2).
Defined.

(** C9.  [head = (tail + count) mod QUEUE_SIZE] holds for a fresh queue and
    after [clear], every push (evicting or not) and every pop carry it from a
    state within bounds to the next, and so it holds in every state reached
    from a fresh queue. *)
Theorem head_follows_tail_and_count (T : Type) (QUEUE_SIZE : Z) (q : SQueue T) :
  1 ≤ QUEUE_SIZE < 2 ^ 32 →
  bounded QUEUE_SIZE q →
  linked QUEUE_SIZE q →
  (∀ buf : list T, linked QUEUE_SIZE (construct buf))
  ∧ linked QUEUE_SIZE (clear q)
  ∧ (∀ e, ∃ rc q', push QUEUE_SIZE e q = Done (rc, q')
                   ∧ linked QUEUE_SIZE q')
  ∧ linked QUEUE_SIZE (pop QUEUE_SIZE q)
  ∧ (∀ q' : SQueue T, reachable QUEUE_SIZE q' →
           queue_head q'
           = (queue_tail q' + num_elements_stored q') mod QUEUE_SIZE).
Proof.
  intros Hsize Hq Hl.
  split; [intros buf; apply (linked_construct QUEUE_SIZE Hsize)|].
  split; [apply (clear_linked QUEUE_SIZE Hsize)|].
  split.
  { intros e. pose proof (push_eq QUEUE_SIZE Hsize e q Hq) as Hp.
    eexists _, _. split; [exact Hp|].
    by apply (push_linked QUEUE_SIZE Hsize e q _ _ (conj Hq Hl) Hp). }
  split; [by apply (pop_linked QUEUE_SIZE Hsize)|].
  intros q' Hr. by apply (reachable_valid QUEUE_SIZE Hsize).
Qed.

Lemma head_follows_tail_and_count_witness :
  1 ≤ 3 < 2 ^ 32
  ∧ bounded 3 Examples.after4
  ∧ linked 3 Examples.after4
  ∧ (∀ buf : list Z, linked 3 (construct buf))
  ∧ linked 3 (clear Examples.after4)
  ∧ (∀ e, ∃ rc q', push 3 e Examples.after4 = Done (rc, q') ∧ linked 3 q')
  ∧ linked 3 (pop 3 Examples.after4)
  ∧ (∀ q' : SQueue Z, reachable 3 q' →
           queue_head q' = (queue_tail q' + num_elements_stored q') mod 3).
Proof.
  assert (H1 : 1 ≤ 3 < 2 ^ 32) by lia.
  assert (H2 : bounded 3 Examples.after4) by closed_facts.
  assert (H3 : linked 3 Examples.after4) by reflexivity.
  repeat (split; [assumption|]).
  exact (head_follows_tail_and_count Z 3 Examples.after4 H1 H2 H3).
Defined.

End V110_Specification.

(** * Versions 1.1.0 and 1.0.0 side by side *)

(** C10.  Started on fresh queues of the same capacity (whatever their
    storage holds), the two versions show the same thing before and after
    every operation of any sequence of pushes, pops and clears: the same
    result code of each push, the same elements behind [front] and [back] (or
    [nullptr] in both), the same [size] and the same [empty]; both show what
    the bounded list shows. *)
Theorem versions_observationally_equivalent (T : Type) (QUEUE_SIZE : Z)
    (buf1 buf0 : list T) (ops : list (op T)) :
  1 ≤ QUEUE_SIZE < 2 ^ 32 →
  Z.of_nat (length buf1) = QUEUE_SIZE →
  Z.of_nat (length buf0) = QUEUE_SIZE →
  ∃ tr, V1_1_0.observations QUEUE_SIZE ops (V1_1_0.construct buf1) = Done tr
        ∧ V1_0_0.observations QUEUE_SIZE ops (V1_0_0.construct buf0) = Done tr
        ∧ tr = RingQueue.observations QUEUE_SIZE ops []
        ∧ length tr = S (length ops).
Proof.
  intros Hsize Hb1 Hb0.
  exists (RingQueue.observations QUEUE_SIZE ops []).
  split.
  { by rewrite (observations_refine QUEUE_SIZE Hsize)
      by (by apply valid_construct). }
  split.
  { by rewrite (v100_observations_refine QUEUE_SIZE Hsize)
      by (by apply v100_valid_construct). }
  split; [done|].
  unfold RingQueue.observations. simpl. f_equal.
  generalize (@nil T). induction ops as [|o ops IH]; intros l; simpl; [done|].
  destruct (RingQueue.step QUEUE_SIZE o l) as [rc l']. simpl. by rewrite IH.
Qed.

Lemma versions_observationally_equivalent_witness :
  1 ≤ 3 < 2 ^ 32
  ∧ Z.of_nat (length [0; 0; 0]) = 3
  ∧ Z.of_nat (length [7; 8; 9]) = 3
  ∧ ∃ tr, V1_1_0.observations 3 (Examples.ops4 ++ [Pop; Push 50; Clear; Pop])
            (V1_1_0.construct [0; 0; 0]) = Done tr
          ∧ V1_0_0.observations 3 (Examples.ops4 ++ [Pop; Push 50; Clear; Pop])
              (V1_0_0.construct [7; 8; 9]) = Done tr
          ∧ tr = RingQueue.observations 3
                   (Examples.ops4 ++ [Pop; Push 50; Clear; Pop]) []
          ∧ length tr = S (length (Examples.ops4 ++ [Pop; Push 50; Clear; Pop])).
Proof.
  assert (H1 : 1 ≤ 3 < 2 ^ 32) by lia.
  assert (H2 : Z.of_nat (length [0; 0; 0]) = 3) by reflexivity.
  assert (H3 : Z.of_nat (length [7; 8; 9]) = 3) by reflexivity.
  repeat (split; [assumption|]).
  exact (versions_observationally_equivalent Z 3 [0; 0; 0] [7; 8; 9]
           (Examples.ops4 ++ [Pop; Push 50; Clear; Pop]) H1 H2 H3).
Defined.

(** * Further properties of version 1.1.0 *)

Section Newest_Facts.
Context {T : Type}.
Implicit Types (l xs : list T) (n : nat).

Lemma newest_length n l : length (newest n l) = (length l `min` n)%nat.
Proof. unfold newest. rewrite length_drop. lia. Qed.

Lemma newest_snoc n l e :
  (1 ≤ n)%nat → (length l ≤ n)%nat →
  (if Z.of_nat n <=? Z.of_nat (length l) then drop 1 l ++ [e] else l ++ [e])
  = newest n (l ++ [e]).
Proof.
  intros Hn Hl. unfold newest. rewrite length_app. simpl.
  destruct (Z.leb_spec (Z.of_nat n) (Z.of_nat (length l))).
  - replace (length l + 1 - n)%nat with 1%nat by lia.
    rewrite drop_app_le by lia. done.
  - replace (length l + 1 - n)%nat with 0%nat by lia. done.
Qed.

Lemma newest_app n l xs : newest n (newest n l ++ xs) = newest n (l ++ xs).
Proof.
  unfold newest at 2. rewrite <- drop_app_le by lia.
  unfold newest. rewrite drop_drop. f_equal.
  rewrite length_drop, !length_app. lia.
Qed.
End Newest_Facts.

Section V110_More.
Import V1_1_0.

Lemma push_all_newest (T : Type) (QUEUE_SIZE : Z) (xs : list T) (q : SQueue T) :
  1 ≤ QUEUE_SIZE < 2 ^ 32 →
  valid QUEUE_SIZE q →
  ∃ q', push_all QUEUE_SIZE xs q = Done q'
        ∧ valid QUEUE_SIZE q'
        ∧ contents q' = newest (Z.to_nat QUEUE_SIZE) (contents q ++ xs).
Proof.
  intros Hsize. unfold push_all. revert q.
  induction xs as [|x xs IH]; intros q Hq; simpl.
  - exists q. split; [done|]. split; [done|].
    pose proof (contents_length QUEUE_SIZE Hsize q (proj1 Hq)) as Hlen.
    destruct Hq as [(Hb & Hh & Ht & Hc) _].
    rewrite app_nil_r. unfold newest.
    by replace (length (contents q) - Z.to_nat QUEUE_SIZE)%nat with 0%nat
      by lia.
  - pose proof (push_eq QUEUE_SIZE Hsize x q (proj1 Hq)) as Hp.
    pose proof (push_contents QUEUE_SIZE Hsize x q _ _ Hq Hp) as Hc.
    pose proof (push_valid QUEUE_SIZE Hsize x q _ _ Hq Hp) as Hv.
    pose proof (contents_length QUEUE_SIZE Hsize q (proj1 Hq)) as Hlen.
    rewrite Hp. simpl.
    match goal with
    | |- context [run _ _ ?q1] =>
        destruct (IH q1 Hv) as (q' & Hrun & Hq' & Hc')
    end.
    exists q'. split; [done|]. split; [done|].
    rewrite Hc', Hc.
    destruct Hq as [(Hb & Hh & Ht & Hcnt) _].
    replace (if full QUEUE_SIZE q then drop 1 (contents q) ++ [x]
             else contents q ++ [x])
      with (newest (Z.to_nat QUEUE_SIZE) (contents q ++ [x])).
    + rewrite newest_app. by rewrite <- app_assoc.
    + rewrite <- newest_snoc by lia. unfold full.
      rewrite Z2Nat.id, Hlen by lia. done.
Qed.

(** X1.  Whatever the queue holds, pushing the elements [xs] succeeds and
    leaves exactly the [QUEUE_SIZE] newest elements of the old contents
    followed by [xs], oldest first; [size] is the smaller of [QUEUE_SIZE] and
    the old size plus the number of pushes. *)
Theorem push_all_keeps_newest (T : Type) (QUEUE_SIZE : Z) (q : SQueue T)
    (xs : list T) :
  1 ≤ QUEUE_SIZE < 2 ^ 32 →
  valid QUEUE_SIZE q →
  ∃ q', push_all QUEUE_SIZE xs q = Done q'
        ∧ contents q' = newest (Z.to_nat QUEUE_SIZE) (contents q ++ xs)
        ∧ size q' = QUEUE_SIZE `min` (size q + Z.of_nat (length xs)).
Proof.
  intros Hsize Hq.
  destruct (push_all_newest T QUEUE_SIZE xs q Hsize Hq) as (q' & Hrun & Hq' & Hc).
  exists q'. split; [done|]. split; [done|].
  pose proof (contents_length QUEUE_SIZE Hsize q (proj1 Hq)) as Hlen.
  pose proof (contents_length QUEUE_SIZE Hsize q' (proj1 Hq')) as Hlen'.
  rewrite Hc, newest_length, length_app in Hlen'. unfold size. lia.
Qed.

Lemma push_all_keeps_newest_witness :
  1 ≤ 3 < 2 ^ 32
  ∧ valid 3 Examples.partial3
  ∧ ∃ q', push_all 3 [40; 50; 60; 70] Examples.partial3 = Done q'
          ∧ contents q'
            = newest (Z.to_nat 3)
                (contents Examples.partial3 ++ [40; 50; 60; 70])
          ∧ size q'
            = 3 `min` (size Examples.partial3
                       + Z.of_nat (length [40; 50; 60; 70])).
Proof.
  assert (H1 : 1 ≤ 3 < 2 ^ 32) by lia.
  assert (H2 : valid 3 Examples.partial3) by closed_facts.
  repeat (split; [assumption|]).
  exact (push_all_keeps_newest Z 3 Examples.partial3 [40; 50; 60; 70] H1 H2).
Defined.

(** X2.  A [pop] of a non-empty queue takes one off [size], lowers the flag
    and touches neither the storage nor the head; what is left is the old
    contents without its oldest element, so the new [front] is the element
    that was second-oldest (or [nullptr] when there was none). *)
Theorem pop_advances_front (T : Type) (QUEUE_SIZE : Z) (q : SQueue T) :
  1 ≤ QUEUE_SIZE < 2 ^ 32 →
  bounded QUEUE_SIZE q →
  empty q = false →
  size (pop QUEUE_SIZE q) = size q - 1
  ∧ buffer (pop QUEUE_SIZE q) = buffer q
  ∧ queue_head (pop QUEUE_SIZE q) = queue_head q
  ∧ queue_overflow (pop QUEUE_SIZE q) = false
  ∧ contents (pop QUEUE_SIZE q) = drop 1 (contents q)
  ∧ front_value (pop QUEUE_SIZE q) = Done (contents q !! 1%nat).
Proof.
  intros Hsize Hq He.
  pose proof (pop_contents QUEUE_SIZE Hsize q Hq) as Hc.
  pose proof (pop_bounded QUEUE_SIZE Hsize q Hq) as Hq'.
  rewrite (front_value_eq QUEUE_SIZE Hsize) by done. rewrite Hc.
  rewrite (pop_eq QUEUE_SIZE Hsize) by done. rewrite He. unfold size. simpl.
  repeat (split; [done|]).
  by rewrite head_lookup, lookup_drop.
Qed.

Lemma pop_advances_front_witness :
  1 ≤ 3 < 2 ^ 32
  ∧ bounded 3 Examples.wrapped3
  ∧ empty Examples.wrapped3 = false
  ∧ size (pop 3 Examples.wrapped3) = size Examples.wrapped3 - 1
  ∧ buffer (pop 3 Examples.wrapped3) = buffer Examples.wrapped3
  ∧ queue_head (pop 3 Examples.wrapped3) = queue_head Examples.wrapped3
  ∧ queue_overflow (pop 3 Examples.wrapped3) = false
  ∧ contents (pop 3 Examples.wrapped3) = drop 1 (contents Examples.wrapped3)
  ∧ front_value (pop 3 Examples.wrapped3)
    = Done (contents Examples.wrapped3 !! 1%nat).
Proof.
  assert (H1 : 1 ≤ 3 < 2 ^ 32) by lia.
  assert (H2 : bounded 3 Examples.wrapped3) by closed_facts.
  assert (H3 : empty Examples.wrapped3 = false) by reflexivity.
  repeat (split; [assumption|]).
  exact (pop_advances_front Z 3 Examples.wrapped3 H1 H2 H3).
Defined.

(** X3.  A push into a queue that is not full returns [OK] and leaves
    [front] where it was, pointer and element, when the queue held something;
    into an empty queue it makes the pushed element both [front] and
    [back]. *)
Theorem push_keeps_front (T : Type) (QUEUE_SIZE : Z) (q : SQueue T) (e : T) :
  1 ≤ QUEUE_SIZE < 2 ^ 32 →
  valid QUEUE_SIZE q →
  full QUEUE_SIZE q = false →
  ∃ q', push QUEUE_SIZE e q = Done (OK, q')
        ∧ (empty q = false →
             front q' = front q ∧ front_value q' = front_value q)
        ∧ (empty q = true →
             front_value q' = Done (Some e)
             ∧ back_value QUEUE_SIZE q' = Done (Some e)).
Proof.
  intros Hsize Hq Hf.
  pose proof (push_eq QUEUE_SIZE Hsize e q (proj1 Hq)) as Hp.
  pose proof (push_contents QUEUE_SIZE Hsize e q _ _ Hq Hp) as Hc.
  pose proof (push_valid QUEUE_SIZE Hsize e q _ _ Hq Hp) as Hv.
  pose proof (contents_nil QUEUE_SIZE Hsize q (proj1 Hq)) as Hnil.
  rewrite Hf in Hp, Hc, Hv. eexists. split; [exact Hp|].
  rewrite (front_value_eq QUEUE_SIZE Hsize) by apply Hv.
  rewrite (back_value_eq QUEUE_SIZE Hsize) by done.
  rewrite (front_value_eq QUEUE_SIZE Hsize) by apply Hq.
  rewrite !(front_eq QUEUE_SIZE Hsize) by (apply Hv || apply Hq).
  rewrite Hc.
  destruct Hq as [(Hb & Hh & Ht & Hcnt) _].
  split.
  - intros He. rewrite He. unfold empty. simpl.
    destruct (Z.eqb_spec (num_elements_stored q + 1) 0); [lia|].
    split; [done|].
    destruct (contents q) as [|a l] eqn:Hl; [|done].
    pose proof (proj1 Hnil eq_refl). congruence.
  - intros He. apply Hnil in He. rewrite He. simpl. done.
Qed.

Lemma push_keeps_front_witness :
  1 ≤ 3 < 2 ^ 32
  ∧ valid 3 Examples.partial3
  ∧ full 3 Examples.partial3 = false
  ∧ ∃ q', push 3 40 Examples.partial3 = Done (OK, q')
          ∧ (empty Examples.partial3 = false →
               front q' = front Examples.partial3
               ∧ front_value q' = front_value Examples.partial3)
          ∧ (empty Examples.partial3 = true →
               front_value q' = Done (Some 40)
               ∧ back_value 3 q' = Done (Some 40)).
Proof.
  assert (H1 : 1 ≤ 3 < 2 ^ 32) by lia.
  assert (H2 : valid 3 Examples.partial3) by closed_facts.
  assert (H3 : full 3 Examples.partial3 = false) by reflexivity.
  repeat (split; [assumption|]).
  exact (push_keeps_front Z 3 Examples.partial3 40 H1 H2 H3).
Defined.

(** X4.  In a valid state the head index meets the tail index exactly when
    the queue is empty or full; the count is what tells the two apart. *)
Theorem head_meets_tail (T : Type) (QUEUE_SIZE : Z) (q : SQueue T) :
  1 ≤ QUEUE_SIZE < 2 ^ 32 →
  valid QUEUE_SIZE q →
  queue_head q = queue_tail q ↔ empty q = true ∨ full QUEUE_SIZE q = true.
Proof.
  intros Hsize [(Hb & Hh & Ht & Hc) Hl]. unfold linked in Hl.
  rewrite empty_true, full_true. rewrite Hl.
  pose proof (queue_size_pos QUEUE_SIZE Hsize) as Hn.
  split.
  - ring_cases Hn; lia.
  - intros [H0|HN]; ring_cases Hn; lia.
Qed.

Lemma head_meets_tail_witness :
  1 ≤ 3 < 2 ^ 32
  ∧ valid 3 Examples.wrapped3
  ∧ (queue_head Examples.wrapped3 = queue_tail Examples.wrapped3
     ↔ empty Examples.wrapped3 = true ∨ full 3 Examples.wrapped3 = true).
Proof.
  assert (H1 : 1 ≤ 3 < 2 ^ 32) by lia.
  assert (H2 : valid 3 Examples.wrapped3) by closed_facts.
  repeat (split; [assumption|]).
  exact (head_meets_tail Z 3 Examples.wrapped3 H1 H2).
Defined.

(** X5.  The pointer returned by [front] can still be read after the [pop]
    that removes the element, and reads the removed element: [pop] moves the
    tail and leaves the storage alone. *)
Theorem front_pointer_survives_pop (T : Type) (QUEUE_SIZE : Z) (q : SQueue T) :
  1 ≤ QUEUE_SIZE < 2 ^ 32 →
  bounded QUEUE_SIZE q →
  empty q = false →
  ∃ p x, front q = Done (Some p)
         ∧ head (contents q) = Some x
         ∧ pointee q (Some p) = Done (Some x)
         ∧ pointee (pop QUEUE_SIZE q) (Some p) = Done (Some x).
Proof.
  intros Hsize Hq He.
  pose proof (front_value_eq QUEUE_SIZE Hsize q Hq) as Hfv.
  unfold front_value in Hfv.
  rewrite (front_eq QUEUE_SIZE Hsize) in * by done.
  rewrite (pop_eq QUEUE_SIZE Hsize) by done. rewrite He in *. simpl in *.
  destruct (array_get (buffer q) (queue_tail q)) as [x|] eqn:Hx;
    simpl in Hfv; [|done].
  injection Hfv as Hfv. exists (queue_tail q), x. by rewrite Hx.
Qed.

Lemma front_pointer_survives_pop_witness :
  1 ≤ 3 < 2 ^ 32
  ∧ bounded 3 Examples.wrapped3
  ∧ empty Examples.wrapped3 = false
  ∧ ∃ p x, front Examples.wrapped3 = Done (Some p)
           ∧ head (contents Examples.wrapped3) = Some x
           ∧ pointee Examples.wrapped3 (Some p) = Done (Some x)
           ∧ pointee (pop 3 Examples.wrapped3) (Some p) = Done (Some x).
Proof.
  assert (H1 : 1 ≤ 3 < 2 ^ 32) by lia.
  assert (H2 : bounded 3 Examples.wrapped3) by closed_facts.
  assert (H3 : empty Examples.wrapped3 = false) by reflexivity.
  repeat (split; [assumption|]).
  exact (front_pointer_survives_pop Z 3 Examples.wrapped3 H1 H2 H3).
Defined.

(** X6.  A push into a full queue writes into the slot [front] pointed to:
    a pointer obtained from [front] before the push reads the pushed element
    afterwards, and is the pointer [back] now returns. *)
Theorem evicting_push_reuses_front_slot (T : Type) (QUEUE_SIZE : Z)
    (q : SQueue T) (e : T) :
  1 ≤ QUEUE_SIZE < 2 ^ 32 →
  valid QUEUE_SIZE q →
  full QUEUE_SIZE q = true →
  ∃ p q', front q = Done (Some p)
          ∧ push QUEUE_SIZE e q = Done (OVERFLOW, q')
          ∧ pointee q' (Some p) = Done (Some e)
          ∧ back QUEUE_SIZE q' = Done (Some p).
Proof.
  intros Hsize Hq Hf.
  pose proof (push_eq QUEUE_SIZE Hsize e q (proj1 Hq)) as Hp.
  pose proof (push_bounded QUEUE_SIZE Hsize e q _ _ (proj1 Hq) Hp) as Hq'.
  rewrite Hf in Hp, Hq'.
  destruct Hq as [(Hb & Hh & Ht & Hc) Hl]. apply full_true in Hf.
  pose proof (queue_size_pos QUEUE_SIZE Hsize) as Hn.
  assert (Hht : queue_head q = queue_tail q).
  { unfold linked in Hl. rewrite Hl. ring_cases Hn; lia. }
  assert (He : empty q = false) by (apply empty_false; lia).
  exists (queue_tail q). eexists. split.
  { rewrite (front_eq QUEUE_SIZE Hsize) by done. by rewrite He. }
  split; [exact Hp|]. split.
  - simpl. rewrite Hht.
    rewrite (array_get_Some _ _ e); [done | lia |].
    apply list_lookup_insert_eq. lia.
  - rewrite (back_eq QUEUE_SIZE Hsize) by done. unfold empty. simpl.
    destruct (Z.eqb_spec (num_elements_stored q) 0); [lia|].
    do 2 f_equal. rewrite Hht.
    pose proof (ring_range QUEUE_SIZE Hn (queue_tail q + 1)) as Hr.
    rewrite <- (ring_prev QUEUE_SIZE Hn) by done.
    destruct (Z.eqb_spec ((queue_tail q + 1) mod QUEUE_SIZE) 0) as [H0|H0];
      revert H0; ring_cases Hn; lia.
Qed.

Lemma evicting_push_reuses_front_slot_witness :
  1 ≤ 3 < 2 ^ 32
  ∧ valid 3 Examples.wrapped3
  ∧ full 3 Examples.wrapped3 = true
  ∧ ∃ p q', front Examples.wrapped3 = Done (Some p)
            ∧ push 3 40 Examples.wrapped3 = Done (OVERFLOW, q')
            ∧ pointee q' (Some p) = Done (Some 40)
            ∧ back 3 q' = Done (Some p).
Proof.
  assert (H1 : 1 ≤ 3 < 2 ^ 32) by lia.
  assert (H2 : valid 3 Examples.wrapped3) by closed_facts.
  assert (H3 : full 3 Examples.wrapped3 = true) by reflexivity.
  repeat (split; [assumption|]).
  exact (evicting_push_reuses_front_slot Z 3 Examples.wrapped3 40 H1 H2 H3).
Defined.

(** X7.  A push into a queue that is not full writes outside the logical
    window: every slot holding a stored element reads the same before and
    after, so pointers obtained from [front] and [back] stay good. *)
Theorem push_leaves_stored_slots (T : Type) (QUEUE_SIZE : Z) (q : SQueue T)
    (e : T) (k : Z) :
  1 ≤ QUEUE_SIZE < 2 ^ 32 →
  valid QUEUE_SIZE q →
  full QUEUE_SIZE q = false →
  0 ≤ k < num_elements_stored q →
  ∃ q' x, push QUEUE_SIZE e q = Done (OK, q')
          ∧ pointee q (Some ((queue_tail q + k) mod QUEUE_SIZE))
            = Done (Some x)
          ∧ pointee q' (Some ((queue_tail q + k) mod QUEUE_SIZE))
            = Done (Some x).
Proof.
  intros Hsize Hq Hf Hk.
  pose proof (push_eq QUEUE_SIZE Hsize e q (proj1 Hq)) as Hp.
  rewrite Hf in Hp. apply full_false in Hf.
  destruct Hq as [(Hb & Hh & Ht & Hc) Hl].
  pose proof (queue_size_pos QUEUE_SIZE Hsize) as Hn.
  pose proof (ring_range QUEUE_SIZE Hn (queue_tail q + k)) as Hr.
  destruct (array_get_lookup (buffer q) ((queue_tail q + k) mod QUEUE_SIZE))
    as (x & Hx & Hget); [lia|].
  eexists _, x. split; [exact Hp|]. simpl. rewrite Hget.
  split; [done|].
  rewrite (array_get_Some _ _ x); [done | lia |].
  rewrite list_lookup_insert_ne; [done|].
  unfold linked in Hl. rewrite Hl. ring_cases Hn; lia.
Qed.

Lemma push_leaves_stored_slots_witness :
  1 ≤ 3 < 2 ^ 32
  ∧ valid 3 Examples.partial3
  ∧ full 3 Examples.partial3 = false
  ∧ 0 ≤ 1 < num_elements_stored Examples.partial3
  ∧ ∃ q' x, push 3 40 Examples.partial3 = Done (OK, q')
            ∧ pointee Examples.partial3
                (Some ((queue_tail Examples.partial3 + 1) mod 3))
              = Done (Some x)
            ∧ pointee q' (Some ((queue_tail Examples.partial3 + 1) mod 3))
              = Done (Some x).
Proof.
  assert (H1 : 1 ≤ 3 < 2 ^ 32) by lia.
  assert (H2 : valid 3 Examples.partial3) by closed_facts.
  assert (H3 : full 3 Examples.partial3 = false) by reflexivity.
  assert (H4 : 0 ≤ 1 < num_elements_stored Examples.partial3)
    by closed_facts.
  repeat (split; [assumption|]).
  exact (push_leaves_stored_slots Z 3 Examples.partial3 40 1 H1 H2 H3 H4).
Defined.

(** X8.  What the storage holds outside the logical window is never seen:
    after [clear], whatever the queue held, every sequence of operations
    shows what it shows on a fresh queue, whatever the fresh storage
    holds. *)
Theorem observations_ignore_storage (T : Type) (QUEUE_SIZE : Z)
    (q : SQueue T) (buf : list T) (ops : list (op T)) :
  1 ≤ QUEUE_SIZE < 2 ^ 32 →
  valid QUEUE_SIZE q →
  Z.of_nat (length buf) = QUEUE_SIZE →
  ∃ tr, observations QUEUE_SIZE ops (clear q) = Done tr
        ∧ observations QUEUE_SIZE ops (construct buf) = Done tr.
Proof.
  intros Hsize Hq Hb. exists (RingQueue.observations QUEUE_SIZE ops []).
  split.
  - by rewrite (observations_refine QUEUE_SIZE Hsize) by (by apply clear_valid).
  - by rewrite (observations_refine QUEUE_SIZE Hsize)
      by (by apply valid_construct).
Qed.

Lemma observations_ignore_storage_witness :
  1 ≤ 3 < 2 ^ 32
  ∧ valid 3 Examples.after4
  ∧ Z.of_nat (length [7; 8; 9]) = 3
  ∧ ∃ tr, observations 3 Examples.ops4 (clear Examples.after4) = Done tr
          ∧ observations 3 Examples.ops4 (construct [7; 8; 9]) = Done tr.
Proof.
  assert (H1 : 1 ≤ 3 < 2 ^ 32) by lia.
  assert (H2 : valid 3 Examples.after4) by closed_facts.
  assert (H3 : Z.of_nat (length [7; 8; 9]) = 3) by reflexivity.
  repeat (split; [assumption|]).
  exact (observations_ignore_storage Z 3 Examples.after4 [7; 8; 9]
           Examples.ops4 H1 H2 H3).
Defined.

(** X9.  An element that compares equal to itself is found by [contains]
    right after it was pushed, whether or not the push evicted. *)
Theorem contains_after_push (T : Type) (QUEUE_SIZE : Z) (eqb : T → T → bool)
    (q : SQueue T) (e : T) :
  1 ≤ QUEUE_SIZE < 2 ^ 32 →
  valid QUEUE_SIZE q →
  eqb e e = true →
  ∃ rc q', push QUEUE_SIZE e q = Done (rc, q')
           ∧ contains QUEUE_SIZE eqb e q' = Some (Done true).
Proof.
  intros Hsize Hq Hee.
  pose proof (push_eq QUEUE_SIZE Hsize e q (proj1 Hq)) as Hp.
  pose proof (push_contents QUEUE_SIZE Hsize e q _ _ Hq Hp) as Hc.
  pose proof (push_bounded QUEUE_SIZE Hsize e q _ _ (proj1 Hq) Hp) as Hq'.
  eexists _, _. split; [exact Hp|].
  match goal with
  | |- contains _ _ _ ?q1 = _ =>
      pose proof Hq' as (_ & _ & _ & Hcnt);
      destruct (contains_loop_spec QUEUE_SIZE Hsize eqb q1 e
                  (Z.to_nat (num_elements_stored q1)) 0 Hq')
        as (b & Hrun & Hiff); [lia | lia |]
  end.
  unfold contains. rewrite Hrun. do 2 f_equal. apply Hiff.
  apply (match_at_contents QUEUE_SIZE Hsize eqb); [done|].
  exists e. split; [|done]. rewrite Hc.
  destruct (full QUEUE_SIZE q); apply elem_of_app; right;
    apply list_elem_of_singleton; done.
Qed.

Lemma contains_after_push_witness :
  1 ≤ 3 < 2 ^ 32
  ∧ valid 3 Examples.wrapped3
  ∧ Z.eqb 40 40 = true
  ∧ ∃ rc q', push 3 40 Examples.wrapped3 = Done (rc, q')
             ∧ contains 3 Z.eqb 40 q' = Some (Done true).
Proof.
  assert (H1 : 1 ≤ 3 < 2 ^ 32) by lia.
  assert (H2 : valid 3 Examples.wrapped3) by closed_facts.
  assert (H3 : Z.eqb 40 40 = true) by reflexivity.
  repeat (split; [assumption|]).
  exact (contains_after_push Z 3 Z.eqb Examples.wrapped3 40 H1 H2 H3).
Defined.

(** X10.  Looking at [front] and popping [k] times, for any [k], shows the
    [k] oldest elements in order and then [nullptr] for every round past the
    end of the queue; the queue is left with the rest of its contents. *)
Theorem drain_beyond_empty (T : Type) (QUEUE_SIZE : Z) (q : SQueue T)
    (k : nat) :
  1 ≤ QUEUE_SIZE < 2 ^ 32 →
  valid QUEUE_SIZE q →
  ∃ q', drain QUEUE_SIZE k q
        = Done ((Some <$> take k (contents q))
                ++ replicate (k - length (contents q)) None, q')
        ∧ contents q' = drop k (contents q).
Proof.
  intros Hsize. revert q. induction k as [|k IH]; intros q Hq; simpl.
  - exists q. by rewrite drop_0.
  - rewrite (front_value_eq QUEUE_SIZE Hsize) by apply Hq. simpl.
    pose proof (pop_contents QUEUE_SIZE Hsize q (proj1 Hq)) as Hpop.
    destruct (IH (pop QUEUE_SIZE q)) as (q' & Hd & Hc');
      [by apply pop_valid|].
    rewrite Hd. simpl. exists q'. rewrite Hc', Hpop.
    destruct (contents q) as [|x l]; simpl.
    + by rewrite take_nil, drop_nil, Nat.sub_0_r.
    + by rewrite !drop_0.
Qed.

Lemma drain_beyond_empty_witness :
  1 ≤ 3 < 2 ^ 32
  ∧ valid 3 Examples.partial3
  ∧ ∃ q', drain 3 4 Examples.partial3
          = Done ((Some <$> take 4 (contents Examples.partial3))
                  ++ replicate (4 - length (contents Examples.partial3)) None,
                  q')
          ∧ contents q' = drop 4 (contents Examples.partial3).
Proof.
  assert (H1 : 1 ≤ 3 < 2 ^ 32) by lia.
  assert (H2 : valid 3 Examples.partial3) by closed_facts.
  repeat (split; [assumption|]).
  exact (drain_beyond_empty Z 3 Examples.partial3 4 H1 H2).
Defined.

(** X11.  On a queue that is neither empty nor full a push and a pop can be
    done in either order: the two orders end in the same state. *)
Theorem push_pop_commute (T : Type) (QUEUE_SIZE : Z) (q : SQueue T) (e : T) :
  1 ≤ QUEUE_SIZE < 2 ^ 32 →
  bounded QUEUE_SIZE q →
  empty q = false →
  full QUEUE_SIZE q = false →
  ∃ q1 q2, push QUEUE_SIZE e q = Done (OK, q1)
           ∧ push QUEUE_SIZE e (pop QUEUE_SIZE q) = Done (OK, q2)
           ∧ pop QUEUE_SIZE q1 = q2.
Proof.
  intros Hsize Hq He Hf.
  pose proof (push_eq QUEUE_SIZE Hsize e q Hq) as Hp.
  pose proof (push_bounded QUEUE_SIZE Hsize e q _ _ Hq Hp) as Hq1.
  pose proof (pop_bounded QUEUE_SIZE Hsize q Hq) as Hq2.
  pose proof (push_eq QUEUE_SIZE Hsize e _ Hq2) as Hp2.
  rewrite Hf in Hp, Hq1.
  rewrite (pop_eq QUEUE_SIZE Hsize) in Hp2 |- * by done.
  rewrite He in Hp2 |- *. simpl in Hp2.
  apply empty_false in He. apply full_false in Hf.
  assert (Hf2 : full QUEUE_SIZE
                  (mkSQueue (buffer q) (queue_head q)
                     ((queue_tail q + 1) mod QUEUE_SIZE)
                     (num_elements_stored q - 1) false) = false).
  { apply full_false. simpl. lia. }
  rewrite Hf2 in Hp2.
  eexists _, _. split; [exact Hp|]. split; [exact Hp2|].
  rewrite (pop_eq QUEUE_SIZE Hsize) by done. unfold empty. simpl.
  destruct Hq as (Hb & Hh & Ht & Hc).
  destruct (Z.eqb_spec (num_elements_stored q + 1) 0); [lia|].
  f_equal. lia.
Qed.

Lemma push_pop_commute_witness :
  1 ≤ 3 < 2 ^ 32
  ∧ bounded 3 Examples.partial3
  ∧ empty Examples.partial3 = false
  ∧ full 3 Examples.partial3 = false
  ∧ ∃ q1 q2, push 3 40 Examples.partial3 = Done (OK, q1)
             ∧ push 3 40 (pop 3 Examples.partial3) = Done (OK, q2)
             ∧ pop 3 q1 = q2.
Proof.
  assert (H1 : 1 ≤ 3 < 2 ^ 32) by lia.
  assert (H2 : bounded 3 Examples.partial3) by closed_facts.
  assert (H3 : empty Examples.partial3 = false) by reflexivity.
  assert (H4 : full 3 Examples.partial3 = false) by reflexivity.
  repeat (split; [assumption|]).
  exact (push_pop_commute Z 3 Examples.partial3 40 H1 H2 H3 H4).
Defined.

(** X12.  A push into a full queue ends in the state a [pop] followed by the
    push would end in, except that the flag is up and the result is
    [OVERFLOW] where the latter returns [OK]. *)
Theorem eviction_is_pop_then_push (T : Type) (QUEUE_SIZE : Z) (q : SQueue T)
    (e : T) :
  1 ≤ QUEUE_SIZE < 2 ^ 32 →
  bounded QUEUE_SIZE q →
  full QUEUE_SIZE q = true →
  ∃ q1 q2, push QUEUE_SIZE e q = Done (OVERFLOW, q1)
           ∧ push QUEUE_SIZE e (pop QUEUE_SIZE q) = Done (OK, q2)
           ∧ q1 = set_queue_overflow true q2.
Proof.
  intros Hsize Hq Hf.
  pose proof (push_eq QUEUE_SIZE Hsize e q Hq) as Hp.
  pose proof (pop_bounded QUEUE_SIZE Hsize q Hq) as Hq2.
  pose proof (push_eq QUEUE_SIZE Hsize e _ Hq2) as Hp2.
  rewrite Hf in Hp. apply full_true in Hf.
  destruct Hq as (Hb & Hh & Ht & Hc).
  assert (He : empty q = false) by (apply empty_false; lia).
  rewrite (pop_eq QUEUE_SIZE Hsize) in Hp2 by done.
  rewrite He in Hp2. simpl in Hp2.
  assert (Hf2 : full QUEUE_SIZE
                  (mkSQueue (buffer q) (queue_head q)
                     ((queue_tail q + 1) mod QUEUE_SIZE)
                     (num_elements_stored q - 1) false) = false).
  { apply full_false. simpl. lia. }
  rewrite Hf2 in Hp2.
  rewrite (pop_eq QUEUE_SIZE Hsize) by done. rewrite He.
  eexists _, _. split; [exact Hp|]. split; [exact Hp2|].
  unfold set_queue_overflow. simpl. f_equal. lia.
Qed.

Lemma eviction_is_pop_then_push_witness :
  1 ≤ 3 < 2 ^ 32
  ∧ bounded 3 Examples.wrapped3
  ∧ full 3 Examples.wrapped3 = true
  ∧ ∃ q1 q2, push 3 40 Examples.wrapped3 = Done (OVERFLOW, q1)
             ∧ push 3 40 (pop 3 Examples.wrapped3) = Done (OK, q2)
             ∧ q1 = set_queue_overflow true q2.
Proof.
  assert (H1 : 1 ≤ 3 < 2 ^ 32) by lia.
  assert (H2 : bounded 3 Examples.wrapped3) by closed_facts.
  assert (H3 : full 3 Examples.wrapped3 = true) by reflexivity.
  repeat (split; [assumption|]).
  exact (eviction_is_pop_then_push Z 3 Examples.wrapped3 40 H1 H2 H3).
Defined.
End V110_More.

(** * The example program *)

Section Example_Show.
Import V1_1_0.
Context {T : Type}.
Variable QUEUE_SIZE : Z.
Hypothesis Hsize : 1 ≤ QUEUE_SIZE < 2 ^ 32.
Implicit Types (q : SQueue T).

Lemma contents_cons q :
  bounded QUEUE_SIZE q → empty q = false →
  ∃ x, array_get (buffer q) (queue_tail q) = Done x
       ∧ contents q = x :: contents (pop QUEUE_SIZE q).
Proof using Hsize.
  intros Hq He.
  pose proof (front_value_eq QUEUE_SIZE Hsize q Hq) as Hfv.
  pose proof (pop_contents QUEUE_SIZE Hsize q Hq) as Hpop.
  unfold front_value in Hfv. rewrite (front_eq QUEUE_SIZE Hsize) in Hfv by done.
  rewrite He in Hfv. simpl in Hfv.
  destruct (array_get (buffer q) (queue_tail q)) as [x|]; simpl in Hfv;
    [|done].
  injection Hfv as Hfv. exists x. split; [done|]. rewrite Hpop.
  destruct (contents q) as [|y l]; [done|].
  simpl in *. rewrite drop_0. congruence.
Qed.

Lemma show_loop_listing (fuel : nat) (i : Z) q :
  bounded QUEUE_SIZE q →
  num_elements_stored q ≤ Z.of_nat fuel →
  i + num_elements_stored q ≤ 2 ^ 31 - 1 →
  Example.show_loop QUEUE_SIZE fuel i q
  = Some (Done (Example.listing i (contents q))).
Proof using Hsize.
  revert i q. induction fuel as [|fuel IH]; intros i q Hq Hfuel Hi;
    pose proof Hq as (Hb & Hh & Ht & Hc);
    simpl; destruct (empty q) eqn:He; simpl.
  - apply (contents_nil QUEUE_SIZE Hsize q Hq) in He. by rewrite He.
  - apply empty_false in He. lia.
  - apply (contents_nil QUEUE_SIZE Hsize q Hq) in He. by rewrite He.
  - destruct (contents_cons q Hq He) as (x & Hx & Hcons).
    rewrite (front_eq QUEUE_SIZE Hsize) by done. rewrite He.
    pose proof (pop_bounded QUEUE_SIZE Hsize q Hq) as Hq'.
    rewrite Hcons. simpl.
    rewrite (pop_eq QUEUE_SIZE Hsize) in Hq' |- * by done.
    rewrite He in Hq' |- *. simpl. rewrite Hx.
    apply empty_false in He.
    unfold Example.int_succ.
    destruct (Z.leb_spec (i + 1) (2 ^ 31 - 1)); [|lia].
    rewrite IH; [done | done | simpl; lia | simpl; lia].
Qed.

Lemma listing_elements (i : Z) (l : list T) :
  (Example.No_more_elements ∉ Example.listing i l)
  ∧ (Example.Queue_content ∉ Example.listing i l)
  ∧ length (Example.listing i l) = length l.
Proof.
  revert i. induction l as [|x l IH]; intros i; simpl.
  - split; [apply not_elem_of_nil|]. split; [apply not_elem_of_nil|done].
  - destruct (IH (i + 1)) as (H1 & H2 & H3).
    split; [|split].
    + intros [Heq|Hin]%elem_of_cons; [discriminate|done].
    + intros [Heq|Hin]%elem_of_cons; [discriminate|done].
    + by rewrite H3.
Qed.
End Example_Show.

Section Example_Properties.
Import V1_1_0.

(** X13.  [show_queue_content] prints nothing for an empty queue; otherwise
    it prints the header and then one line per stored element, oldest first
    and numbered from 0.  Its loop ends within [size] rounds, each element is
    read where [front] pointed before the [pop], and the line "No more
    elements in the queue" is never printed. *)
Theorem show_queue_content_lists_contents (T : Type) (QUEUE_SIZE : Z)
    (fuel : nat) (q : SQueue T) :
  1 ≤ QUEUE_SIZE < 2 ^ 32 →
  bounded QUEUE_SIZE q →
  num_elements_stored q ≤ 2 ^ 31 - 1 →
  num_elements_stored q ≤ Z.of_nat fuel →
  ∃ out, Example.show_queue_content QUEUE_SIZE fuel q = Some (Done out)
         ∧ out = (if empty q then []
                  else Example.Queue_content :: Example.listing 0 (contents q))
         ∧ (Example.No_more_elements ∉ out)
         ∧ (empty q = false → Z.of_nat (length out) = size q + 1).
Proof.
  intros Hsize Hq Hint Hfuel. unfold Example.show_queue_content.
  pose proof (contents_length QUEUE_SIZE Hsize q Hq) as Hlen.
  destruct (empty q) eqn:He.
  - exists []. split; [done|]. split; [done|].
    split; [apply not_elem_of_nil|done].
  - rewrite (show_loop_listing QUEUE_SIZE Hsize) by (done || lia).
    eexists. split; [done|]. split; [done|].
    destruct (listing_elements 0 (contents q)) as (H1 & _ & H3).
    split.
    + intros [Heq|Hin]%elem_of_cons; [discriminate|done].
    + intros _. simpl. rewrite H3. unfold size. lia.
Qed.

Lemma show_queue_content_lists_contents_witness :
  1 ≤ 3 < 2 ^ 32
  ∧ bounded 3 Examples.wrapped3
  ∧ num_elements_stored Examples.wrapped3 ≤ 2 ^ 31 - 1
  ∧ num_elements_stored Examples.wrapped3 ≤ Z.of_nat 3
  ∧ ∃ out, Example.show_queue_content 3 3 Examples.wrapped3 = Some (Done out)
           ∧ out = (if empty Examples.wrapped3 then []
                    else Example.Queue_content
                         :: Example.listing 0 (contents Examples.wrapped3))
           ∧ (Example.No_more_elements ∉ out)
           ∧ (empty Examples.wrapped3 = false →
              Z.of_nat (length out) = size Examples.wrapped3 + 1).
Proof.
  assert (H1 : 1 ≤ 3 < 2 ^ 32) by lia.
  assert (H2 : bounded 3 Examples.wrapped3) by closed_facts.
  assert (H3 : num_elements_stored Examples.wrapped3 ≤ 2 ^ 31 - 1)
    by closed_facts.
  assert (H4 : num_elements_stored Examples.wrapped3 ≤ Z.of_nat 3)
    by closed_facts.
  repeat (split; [assumption|]).
  exact (show_queue_content_lists_contents Z 3 3 Examples.wrapped3
           H1 H2 H3 H4).
Defined.
End Example_Properties.

(** * Further properties of version 1.0.0 *)

Section V100_Runs.
Import V1_0_0.
Context {T : Type}.
Variable QUEUE_SIZE : Z.
Hypothesis Hsize : 1 ≤ QUEUE_SIZE < 2 ^ 32.
Implicit Types (q : SQueue T) (ops : list (op T)).

Lemma v100_run_refines ops q :
  valid QUEUE_SIZE q →
  ∃ q', run QUEUE_SIZE ops q = Done q'
        ∧ valid QUEUE_SIZE q'
        ∧ contents QUEUE_SIZE q'
          = RingQueue.run QUEUE_SIZE ops (contents QUEUE_SIZE q).
Proof using Hsize.
  revert q. induction ops as [|o ops IH]; intros q Hq; simpl.
  - by exists q.
  - destruct (v100_step_refines QUEUE_SIZE Hsize o q Hq)
      as (rc & q1 & -> & Hq1 & ->). simpl.
    by apply IH.
Qed.
End V100_Runs.

Section Versions_Indexes.
Context {T : Type}.
Variable QUEUE_SIZE : Z.
Hypothesis Hsize : 1 ≤ QUEUE_SIZE < 2 ^ 32.

Lemma step_same_indexes (o : op T) q1 q0 :
  V1_1_0.valid QUEUE_SIZE q1 → V1_0_0.valid QUEUE_SIZE q0 →
  same_indexes q1 q0 →
  ∃ r1 q1' r0 q0',
    V1_1_0.step QUEUE_SIZE o q1 = Done (r1, q1')
    ∧ V1_0_0.step QUEUE_SIZE o q0 = Done (r0, q0')
    ∧ V1_1_0.valid QUEUE_SIZE q1' ∧ V1_0_0.valid QUEUE_SIZE q0'
    ∧ same_indexes q1' q0'.
Proof using Hsize.
  intros Hq1 Hq0 (Hh & Ht & Hc & Ho).
  destruct (step_valid QUEUE_SIZE Hsize o q1 Hq1) as (r1 & q1' & Hs1 & Hq1').
  destruct (v100_step_refines QUEUE_SIZE Hsize o q0 Hq0)
    as (r0 & q0' & Hs0 & Hq0' & _).
  exists r1, q1', r0, q0'. repeat (split; [done|]).
  assert (Hfull : V1_1_0.full QUEUE_SIZE q1 = V1_0_0.full QUEUE_SIZE q0).
  { unfold V1_1_0.full, V1_0_0.full, V1_0_0.size. by rewrite Hc. }
  assert (Hempty : V1_1_0.empty q1 = V1_0_0.empty q0).
  { unfold V1_1_0.empty, V1_0_0.empty. by rewrite Hc. }
  destruct o as [e| |]; simpl in Hs1, Hs0.
  - rewrite (push_eq QUEUE_SIZE Hsize) in Hs1 by apply Hq1.
    rewrite (v100_push_eq QUEUE_SIZE Hsize) in Hs0 by done.
    simpl in Hs1, Hs0. injection Hs1 as _ <-. injection Hs0 as _ <-.
    unfold same_indexes. simpl. rewrite Hfull, Hh, Ht, Hc. done.
  - rewrite (pop_eq QUEUE_SIZE Hsize) in Hs1 by apply Hq1.
    rewrite (v100_pop_eq QUEUE_SIZE Hsize) in Hs0 by done.
    injection Hs1 as _ <-. injection Hs0 as _ <-.
    rewrite Hempty. destruct (V1_0_0.empty q0); [done|].
    unfold same_indexes. simpl. rewrite Hh, Ht, Hc. done.
  - injection Hs1 as _ <-. injection Hs0 as _ <-. done.
Qed.

Lemma run_same_indexes (ops : list (op T)) q1 q0 :
  V1_1_0.valid QUEUE_SIZE q1 → V1_0_0.valid QUEUE_SIZE q0 →
  same_indexes q1 q0 →
  ∃ q1' q0',
    V1_1_0.run QUEUE_SIZE ops q1 = Done q1'
    ∧ V1_0_0.run QUEUE_SIZE ops q0 = Done q0'
    ∧ same_indexes q1' q0'.
Proof using Hsize.
  revert q1 q0. induction ops as [|o ops IH]; intros q1 q0 Hq1 Hq0 Hsame;
    simpl.
  - by exists q1, q0.
  - destruct (step_same_indexes o q1 q0 Hq1 Hq0 Hsame)
      as (r1 & q1' & r0 & q0' & -> & -> & Hq1' & Hq0' & Hsame').
    simpl. by apply IH.
Qed.
End Versions_Indexes.

Section V100_Properties.

(** X14.  Every sequence of operations on a fresh version 1.0.0 queue runs to
    the end without leaving the array, and ends in a state whose indexes are
    in range, whose head is count slots after the tail and whose flag is up
    only when the queue is full; there a push returns [BUFFER_OVERFLOW]
    exactly when the queue is full, although a push that does not evict
    never lowers the flag. *)
Theorem v100_runs_stay_valid (T : Type) (QUEUE_SIZE : Z) (buf : list T)
    (ops : list (op T)) :
  1 ≤ QUEUE_SIZE < 2 ^ 32 →
  Z.of_nat (length buf) = QUEUE_SIZE →
  ∃ q, V1_0_0.run QUEUE_SIZE ops (V1_0_0.construct buf) = Done q
       ∧ V1_0_0.bounded QUEUE_SIZE q
       ∧ V1_0_0.linked QUEUE_SIZE q
       ∧ (V1_0_0.buffer_overflow q = true →
          V1_0_0.num_elements_stored q = QUEUE_SIZE)
       ∧ ∀ e, ∃ rc q',
           V1_0_0.push QUEUE_SIZE e q = Done (rc, q')
           ∧ (rc = V1_0_0.BUFFER_OVERFLOW
              ↔ V1_0_0.full QUEUE_SIZE q = true).
Proof.
  intros Hsize Hb.
  destruct (v100_run_refines QUEUE_SIZE Hsize ops (V1_0_0.construct buf))
    as (q & Hrun & Hq & _); [by apply v100_valid_construct|].
  exists q. split; [done|]. pose proof Hq as (Hbd & Hl & Hflag).
  repeat (split; [done|]).
  intros e. rewrite (v100_push_eq QUEUE_SIZE Hsize) by done.
  eexists _, _. split; [done|].
  destruct (V1_0_0.full QUEUE_SIZE q); split; (done || discriminate).
Qed.

Lemma v100_runs_stay_valid_witness :
  1 ≤ 3 < 2 ^ 32
  ∧ Z.of_nat (length [7; 8; 9]) = 3
  ∧ ∃ q, V1_0_0.run 3 (Examples.ops4 ++ [Pop; Push 50])
           (V1_0_0.construct [7; 8; 9]) = Done q
         ∧ V1_0_0.bounded 3 q
         ∧ V1_0_0.linked 3 q
         ∧ (V1_0_0.buffer_overflow q = true →
            V1_0_0.num_elements_stored q = 3)
         ∧ ∀ e, ∃ rc q',
             V1_0_0.push 3 e q = Done (rc, q')
             ∧ (rc = V1_0_0.BUFFER_OVERFLOW ↔ V1_0_0.full 3 q = true).
Proof.
  assert (H1 : 1 ≤ 3 < 2 ^ 32) by lia.
  assert (H2 : Z.of_nat (length [7; 8; 9]) = 3) by reflexivity.
  repeat (split; [assumption|]).
  exact (v100_runs_stay_valid Z 3 [7; 8; 9]
           (Examples.ops4 ++ [Pop; Push 50]) H1 H2).
Defined.

(** X15.  After the same operations on fresh queues the two versions have
    the same head, tail, count and flag, and version 1.0.0 stores every
    element one slot after the slot version 1.1.0 stores it in. *)
Theorem versions_share_indexes (T : Type) (QUEUE_SIZE : Z)
    (buf1 buf0 : list T) (ops : list (op T)) :
  1 ≤ QUEUE_SIZE < 2 ^ 32 →
  Z.of_nat (length buf1) = QUEUE_SIZE →
  Z.of_nat (length buf0) = QUEUE_SIZE →
  ∃ q1 q0,
    V1_1_0.run QUEUE_SIZE ops (V1_1_0.construct buf1) = Done q1
    ∧ V1_0_0.run QUEUE_SIZE ops (V1_0_0.construct buf0) = Done q0
    ∧ same_indexes q1 q0
    ∧ ∀ k, 0 ≤ k < V1_1_0.num_elements_stored q1 →
           V1_0_0.buffer q0
             !! Z.to_nat ((V1_0_0.queue_tail q0 + 1 + k) mod QUEUE_SIZE)
           = V1_1_0.buffer q1
               !! Z.to_nat ((V1_1_0.queue_tail q1 + k) mod QUEUE_SIZE).
Proof.
  intros Hsize Hb1 Hb0.
  pose proof (valid_construct QUEUE_SIZE Hsize buf1 Hb1) as Hv1.
  pose proof (v100_valid_construct QUEUE_SIZE Hsize buf0 Hb0) as Hv0.
  destruct (run_same_indexes QUEUE_SIZE Hsize ops _ _ Hv1 Hv0)
    as (q1 & q0 & Hrun1 & Hrun0 & Hsame); [done|].
  destruct (run_refines QUEUE_SIZE Hsize ops _ Hv1)
    as (q1' & Hrun1' & Hq1 & Hc1).
  destruct (v100_run_refines QUEUE_SIZE Hsize ops _ Hv0)
    as (q0' & Hrun0' & Hq0 & Hc0).
  assert (q1' = q1) as -> by congruence.
  assert (q0' = q0) as -> by congruence.
  exists q1, q0. repeat (split; [done|]).
  intros k Hk. destruct Hsame as (Hh & Ht & Hc & Ho).
  pose proof (queue_size_pos QUEUE_SIZE Hsize) as Hn.
  destruct Hq0 as ((Hlen0 & Hh0 & Ht0 & Hcnt0) & _).
  pose proof (ring_range QUEUE_SIZE Hn (V1_0_0.queue_tail q0 + 1)) as Hr.
  pose proof (contents_lookup QUEUE_SIZE Hsize q1 (Z.to_nat k) (proj1 Hq1))
    as Hl1.
  pose proof (ring_window_lookup QUEUE_SIZE Hn (V1_0_0.buffer q0)
                ((V1_0_0.queue_tail q0 + 1) mod QUEUE_SIZE)
                (V1_0_0.num_elements_stored q0) (Z.to_nat k)
                Hlen0 Hr Hcnt0) as Hl0.
  rewrite Z2Nat.id in Hl1, Hl0 by lia.
  rewrite <- Hl1 by lia.
  replace ((V1_0_0.queue_tail q0 + 1 + k) mod QUEUE_SIZE)
    with (((V1_0_0.queue_tail q0 + 1) mod QUEUE_SIZE + k) mod QUEUE_SIZE)
    by (ring_cases Hn; lia).
  rewrite <- Hl0 by lia.
  change (V1_0_0.contents QUEUE_SIZE q0 !! Z.to_nat k
          = V1_1_0.contents q1 !! Z.to_nat k).
  rewrite Hc0, Hc1. done.
Qed.

Lemma versions_share_indexes_witness :
  1 ≤ 3 < 2 ^ 32
  ∧ Z.of_nat (length [0; 0; 0]) = 3
  ∧ Z.of_nat (length [7; 8; 9]) = 3
  ∧ ∃ q1 q0,
      V1_1_0.run 3 Examples.ops4 (V1_1_0.construct [0; 0; 0]) = Done q1
      ∧ V1_0_0.run 3 Examples.ops4 (V1_0_0.construct [7; 8; 9]) = Done q0
      ∧ same_indexes q1 q0
      ∧ ∀ k, 0 ≤ k < V1_1_0.num_elements_stored q1 →
             V1_0_0.buffer q0
               !! Z.to_nat ((V1_0_0.queue_tail q0 + 1 + k) mod 3)
             = V1_1_0.buffer q1
                 !! Z.to_nat ((V1_1_0.queue_tail q1 + k) mod 3).
Proof.
  assert (H1 : 1 ≤ 3 < 2 ^ 32) by lia.
  assert (H2 : Z.of_nat (length [0; 0; 0]) = 3) by reflexivity.
  assert (H3 : Z.of_nat (length [7; 8; 9]) = 3) by reflexivity.
  repeat (split; [assumption|]).
  exact (versions_share_indexes Z 3 [0; 0; 0] [7; 8; 9] Examples.ops4
           H1 H2 H3).
Defined.
End V100_Properties.
